(** * VPC Route Cost Dashboard: the dataset filter and summariser

    A shallow embedding of [main] of [streamlit_app.py] and the properties
    of its filtering, option derivation, summary and grouped aggregation.

    Modelling conventions.
    - A data frame is the list of its rows in index order; a column is the
      list obtained by projecting one field.
    - A cell of the sheet is either blank (pandas NaN), [None], or holds a
      value: a string in the four categorical columns, a machine number in
      the numeric ones.  [Series.count()] counts the cells that are not
      blank, [groupby] drops the rows whose key has a blank cell, and a
      blank cell equals no string.
    - Python [str] values are their UTF-8 byte strings; byte-wise comparison
      of UTF-8 coincides with Python's code-point comparison.
    - Numbers are machine numbers (int64 or float64 according to the column)
      and the numeric operations are those of the library, rounding and
      wrapping as they do: they are the fields of the class [Arith], about
      which nothing is assumed.  Exact rational arithmetic is one instance,
      [exact_arith]; it returns what pandas returns on inputs where no
      operation rounds or overflows.
    - The sheet has the nine columns the program names; looking up a column
      that is missing raises [KeyError], which is outside this model. *)

From Stdlib Require Import QArith Qcanon.
From stdpp Require Import base decidable list strings sorting.

Set Warnings "-clear-no-such-hyp".

Local Open Scope string_scope.
Local Open Scope list_scope.

(** ** Machine arithmetic *)

(** The numeric values of the cells and the numeric operations of the
    library that [main] calls.  A result that is not a number (NaN) is
    [None], like a blank cell.  [add] and [sub] are [Series + Series] and
    [Series - Series] on one pair of cells (and the subtraction of two
    scalars); [sum_axis1] is [DataFrame.sum(axis=1)] on the cells of one
    row; [Series_sum] and [Series_mean] are [Series.sum()] and
    [Series.mean()] on a column; [group_sum] and [group_mean] are the
    ['sum'] and ['mean'] aggregations of [groupby] on the cells of one
    group. *)
Class Arith := {
  num : Type;
  add : option num → option num → option num;
  sub : option num → option num → option num;
  sum_axis1 : list (option num) → option num;
  Series_sum : list (option num) → option num;
  Series_mean : list (option num) → option num;
  group_sum : list (option num) → option num;
  group_mean : list (option num) → option num
}.

(** ** Data model *)

(** A row of the sheet as [pd.read_excel] returns it. *)
Record raw_record `{Arith} := {
  raw_ORIGIN : option string;
  raw_DESTINATION : option string;
  raw_Fleet : option string;
  raw_Month : option string;
  raw_TRIP_RATE : option num;
  raw_DISPATCH : option num;
  raw_PROFIT : option num;
  raw_COMMISSION : option num;
  raw_COST_LITRE : option num
}.

(** A row after [data.drop(columns=['COMMISSION', 'COST/LITRE'])] (line 24),
    on a sheet that holds the nine columns. *)
Record record `{Arith} := {
  ORIGIN : option string;
  DESTINATION : option string;
  Fleet : option string;
  Month : option string;
  TRIP_RATE : option num;
  DISPATCH : option num;
  PROFIT : option num
}.

Abbreviation table := (list record).

Definition drop_columns `{Arith} (r : raw_record) : record :=
  {| ORIGIN := raw_ORIGIN r; DESTINATION := raw_DESTINATION r;
     Fleet := raw_Fleet r; Month := raw_Month r;
     TRIP_RATE := raw_TRIP_RATE r; DISPATCH := raw_DISPATCH r;
     PROFIT := raw_PROFIT r |}.

(** The values returned by the four sidebar select boxes, each one of the
    options of its box: "All", a string of the column, or the blank entry
    (NaN, [None]) that the box offers when the column has a blank cell. *)
Record selection := {
  selected_origin : option string;
  selected_destination : option string;
  selected_fleet : option string;
  selected_month : option string
}.

(** The four categorical fields, to speak about them uniformly. *)
Inductive field := F_ORIGIN | F_DESTINATION | F_Fleet | F_Month.

Definition cell `{Arith} (f : field) (r : record) : option string :=
  match f with
  | F_ORIGIN => ORIGIN r
  | F_DESTINATION => DESTINATION r
  | F_Fleet => Fleet r
  | F_Month => Month r
  end.

Definition selected (f : field) (s : selection) : option string :=
  match f with
  | F_ORIGIN => selected_origin s
  | F_DESTINATION => selected_destination s
  | F_Fleet => selected_fleet s
  | F_Month => selected_month s
  end.

(** ** Filter options (lines 27-30) *)

(** [Series.unique()]: the hash-table walk keeps a value the first time it
    is met and skips it afterwards; NaN counts as one value. *)
Fixpoint unique_from {A} `{EqDecision A} (seen : list A) (l : list A) : list A :=
  match l with
  | [] => []
  | x :: l' =>
      if bool_decide (x ∈ seen) then unique_from seen l'
      else x :: unique_from (x :: seen) l'
  end.

Definition unique {A} `{EqDecision A} (l : list A) : list A := unique_from [] l.

(** The same list in the words of the specification: the value at position
    [i] is kept exactly when it does not occur before position [i]. *)
Definition first_occurrences {A} `{EqDecision A} (l : list A) : list A :=
  omap (λ i, x ← l !! i; if decide (x ∈ take i l) then None else Some x)
       (seq 0 (length l)).

Definition column `{Arith} {B} (f : record → B) (data : table) : list B :=
  f <$> data.

Definition options `{Arith} (f : field) (data : table) : list (option string) :=
  [Some "All"] ++ unique (column (cell f) data).

Definition origin_options `{Arith} := options F_ORIGIN.
Definition destination_options `{Arith} := options F_DESTINATION.
Definition fleet_options `{Arith} := options F_Fleet.
Definition month_options `{Arith} := options F_Month.

(** ** Filtering (lines 40-48) *)

(** [df[df[col] == v]]: boolean-mask indexing keeps the rows whose mask is
    true, in index order; NaN equals nothing, itself included, so a blank
    cell matches no value and the blank entry matches no cell. *)
Definition mask_eq `{Arith} (f : field) (v : option string) (df : table) : table :=
  filter (λ r, is_Some v ∧ cell f r = v) df.

(** One [if selected != 'All': filtered_data = ...] step. *)
Definition filter_step `{Arith} (f : field) (s : selection) (df : table) : table :=
  if decide (selected f s ≠ Some "All") then mask_eq f (selected f s) df else df.

Definition filtered_data `{Arith} (s : selection) (data : table) : table :=
  let filtered_data := data in
  let filtered_data := filter_step F_ORIGIN s filtered_data in
  let filtered_data := filter_step F_DESTINATION s filtered_data in
  let filtered_data := filter_step F_Fleet s filtered_data in
  let filtered_data := filter_step F_Month s filtered_data in
  filtered_data.

(** The contract of filtering, in the words of the specification: a field
    whose selection is not "All" must carry the selected value. *)
Definition field_admits `{Arith} (f : field) (s : selection) (r : record) : Prop :=
  selected f s ≠ Some "All" → is_Some (selected f s) ∧ cell f r = selected f s.

Definition admits `{Arith} (s : selection) (r : record) : Prop :=
  field_admits F_ORIGIN s r ∧ field_admits F_DESTINATION s r ∧
  field_admits F_Fleet s r ∧ field_admits F_Month s r.

Global Instance field_admits_dec `{Arith} f s r : Decision (field_admits f s r).
Proof. unfold field_admits. apply _. Defined.

Global Instance admits_dec `{Arith} s r : Decision (admits s r).
Proof. unfold admits. apply _. Defined.

Definition all_selection : selection :=
  {| selected_origin := Some "All"; selected_destination := Some "All";
     selected_fleet := Some "All"; selected_month := Some "All" |}.

(** ** pandas reductions over a column *)

(** The cells of a column that are not blank. *)
Definition populated {B} (col : list (option B)) : list B := omap id col.

(** [Series.count()]: the number of cells that are not blank. *)
Definition count {B} (col : list (option B)) : nat := length (populated col).

(** [DataFrame.empty]. *)
Definition empty {B} (df : list B) : bool :=
  match df with [] => true | _ :: _ => false end.

(** ** Sidebar summary (lines 51-55) *)

Module Sidebar.
Record summary `{Arith} := {
  total_trips : nat;
  total_revenue : option num;
  average_profit : option num;
  average_cost : option num
}.
End Sidebar.

(** [filtered_data[['TRIP RATE', 'DISPATCH']].sum(axis=1)]. *)
Definition TRIP_RATE_DISPATCH_sum `{Arith} (df : table) : list (option num) :=
  (λ r, sum_axis1 [TRIP_RATE r; DISPATCH r]) <$> df.

Definition sidebar_summary `{Arith} (filtered_data : table)
  : option Sidebar.summary :=
  if negb (empty filtered_data) then
    let total_trips := count (column ORIGIN filtered_data) in
    let total_revenue := Series_sum (column TRIP_RATE filtered_data) in
    let average_profit := Series_mean (column PROFIT filtered_data) in
    let average_cost :=
      sub (Series_mean (TRIP_RATE_DISPATCH_sum filtered_data)) average_profit in
    Some {| Sidebar.total_trips := total_trips;
            Sidebar.total_revenue := total_revenue;
            Sidebar.average_profit := average_profit;
            Sidebar.average_cost := average_cost |}
  else None.

(** ** Grouped aggregation (lines 69-77) *)

(** The cell [(TRIP RATE + DISPATCH) - PROFIT] of a row. *)
Definition total_cost `{Arith} (r : record) : option num :=
  sub (add (TRIP_RATE r) (DISPATCH r)) (PROFIT r).

(** A row once the column [TOTAL_COST] has been assigned. *)
Record costed_record `{Arith} := {
  row : record;
  TOTAL_COST : option num
}.

Definition assign_TOTAL_COST `{Arith} (filtered_data : table)
  : list costed_record :=
  (λ r, {| row := r; TOTAL_COST := total_cost r |}) <$> filtered_data.

(** Insertion sort: stable, as the sorts behind [groupby] and
    [sort_values] on several columns are. *)
Fixpoint insert_sorted {A} (leb : A → A → bool) (x : A) (l : list A) : list A :=
  match l with
  | [] => [x]
  | y :: l' => if leb x y then x :: y :: l' else y :: insert_sorted leb x l'
  end.

Definition stable_sort {A} (leb : A → A → bool) (l : list A) : list A :=
  foldr (insert_sorted leb) [] l.

(** Group keys are the pairs (Month, Fleet); Python orders tuples
    lexicographically and strings by code point. *)
Definition key : Type := string * string.

(** The key of a row; a row with a blank Month or Fleet has none and is
    left out of every group ([dropna=True], the default). *)
Definition key_of `{Arith} (c : costed_record) : option key :=
  m ← Month (row c); f ← Fleet (row c); Some (m, f).

Definition key_leb (k1 k2 : key) : bool :=
  match String.compare k1.1 k2.1 with
  | Lt => true
  | Eq => String.leb k1.2 k2.2
  | Gt => false
  end.

(** [df.groupby(['Month', 'Fleet'])]: one group per distinct key, the groups
    in increasing key order ([sort=True]), the rows of a group in index
    order. *)
Definition group_keys `{Arith} (df : list costed_record) : list key :=
  stable_sort key_leb (unique (populated (key_of <$> df))).

Definition groupby `{Arith} (df : list costed_record)
  : list (key * list costed_record) :=
  (λ k, (k, filter (λ c, key_of c = Some k) df)) <$> group_keys df.

Module Grouped.
(** A row of the aggregate; [M] is the type of the Month cell, a string
    after [reset_index] and a categorical value afterwards. *)
Record row `{Arith} (M : Type) := {
  Month : M;
  Fleet : string;
  number_of_trips : nat;
  total_revenue : option num;
  average_profit : option num;
  average_cost : option num
}.
Arguments Month {_ M} _.
Arguments Fleet {_ M} _.
Arguments number_of_trips {_ M} _.
Arguments total_revenue {_ M} _.
Arguments average_profit {_ M} _.
Arguments average_cost {_ M} _.
End Grouped.

(** [.agg(...)] on one group, and [reset_index()] turning the key into the
    two leading columns. *)
Definition agg `{Arith} (g : key * list costed_record) : Grouped.row string :=
  {| Grouped.Month := g.1.1;
     Grouped.Fleet := g.1.2;
     Grouped.number_of_trips := count ((λ c, ORIGIN (row c)) <$> g.2);
     Grouped.total_revenue := group_sum ((λ c, TRIP_RATE (row c)) <$> g.2);
     Grouped.average_profit := group_mean ((λ c, PROFIT (row c)) <$> g.2);
     Grouped.average_cost := group_mean (TOTAL_COST <$> g.2) |}.

Definition grouped_summary `{Arith} (df : list costed_record)
  : list (Grouped.row string) :=
  agg <$> groupby df.

(** ** Chronological sort (lines 80-82) *)

Definition month_order : list string := ["JULY"; "AUGUST"; "SEPTEMBER"; "OCTOBER"].

(** [pd.Categorical(values, categories=...)]: a value that is not one of the
    categories becomes NaN, here [None]. *)
Definition Categorical (categories : list string) (v : string) : option string :=
  if decide (v ∈ categories) then Some v else None.

Definition to_categorical `{Arith} (g : Grouped.row string)
  : Grouped.row (option string) :=
  {| Grouped.Month := Categorical month_order (Grouped.Month g);
     Grouped.Fleet := Grouped.Fleet g;
     Grouped.number_of_trips := Grouped.number_of_trips g;
     Grouped.total_revenue := Grouped.total_revenue g;
     Grouped.average_profit := Grouped.average_profit g;
     Grouped.average_cost := Grouped.average_cost g |}.

(** Position of a value in a list, the length of the list when absent. *)
Fixpoint index (x : string) (l : list string) : nat :=
  match l with
  | [] => 0
  | y :: l' => if decide (x = y) then 0 else S (index x l')
  end.

(** The sort code of a categorical cell: the position of its category, and
    the number of categories for NaN ([na_position='last']). *)
Definition code (categories : list string) (c : option string) : nat :=
  match c with
  | Some v => index v categories
  | None => length categories
  end.

Definition row_leb `{Arith} (a b : Grouped.row (option string)) : bool :=
  match Nat.compare (code month_order (Grouped.Month a))
                    (code month_order (Grouped.Month b)) with
  | Lt => true
  | Eq => String.leb (Grouped.Fleet a) (Grouped.Fleet b)
  | Gt => false
  end.

(** [sort_values(['Month', 'Fleet'])]. *)
Definition sort_values `{Arith} (rows : list (Grouped.row (option string)))
  : list (Grouped.row (option string)) :=
  stable_sort row_leb rows.

Definition summary_by_month_and_fleet `{Arith} (filtered_data : table)
  : list (Grouped.row (option string)) :=
  let filtered_data := assign_TOTAL_COST filtered_data in
  let summary_by_month_and_fleet := grouped_summary filtered_data in
  let summary_by_month_and_fleet := to_categorical <$> summary_by_month_and_fleet in
  sort_values summary_by_month_and_fleet.

(** The order of the aggregate, in the words of the specification: months
    chronologically, a month outside the four after them, then fleets
    lexicographically. *)
Definition month_rank (m : option string) : nat :=
  match m with
  | Some "JULY" => 0
  | Some "AUGUST" => 1
  | Some "SEPTEMBER" => 2
  | Some "OCTOBER" => 3
  | _ => 4
  end.

Definition str_le (a b : string) : Prop := String.compare a b ≠ Gt.

Definition row_before `{Arith} (a b : Grouped.row (option string)) : Prop :=
  month_rank (Grouped.Month a) < month_rank (Grouped.Month b)
  ∨ (month_rank (Grouped.Month a) = month_rank (Grouped.Month b)
     ∧ str_le (Grouped.Fleet a) (Grouped.Fleet b)).

(** ** The page (lines 8-115) *)

(** What one run of [main] puts on the page, in call order.  Expanders are
    named by their content; number formatting and chart styling are left to
    the rendering library. *)
Inductive element `{Arith} :=
| title (text : string)
| write (text : string)
| error (text : string)
| sidebar_selectboxes (origin destination fleet month : list (option string))
| sidebar_summary_panel (s : Sidebar.summary)
| filtered_route_data (df : table)
| summary_table (rows : list (Grouped.row (option string)))
| bar_chart (y : string) (rows : list (Grouped.row (option string))).

Definition is_error `{Arith} (e : element) : bool :=
  match e with error _ => true | _ => false end.

(** The sections that depend on a non-empty filtered table. *)
Definition is_dependent `{Arith} (e : element) : bool :=
  match e with
  | sidebar_summary_panel _ | summary_table _ | bar_chart _ _ => true
  | _ => false
  end.

(** The elements that show data of the upload. *)
Definition shows_data `{Arith} (e : element) : bool :=
  match e with
  | title _ | write _ | error _ => false
  | _ => true
  end.

Section Main.
Context `{Arith}.

(** [pd.read_excel(file, sheet_name=...)]: the rows of the sheet, which
    holds the nine columns, or the message of the exception it raises. *)
Variable read_excel : list Byte.byte → string → string + list raw_record.

(** [uploaded_file] is the value of the upload widget and [s] the values
    of the four select boxes. *)
Definition main (uploaded_file : option (list Byte.byte)) (s : selection)
  : list element :=
  [title "VPC Route Cost Dashboard";
   write "This dashboard allows users to search routes by origin, destination, fleet, and month."]
  ++ match uploaded_file with
     | None => []
     | Some file =>
         match read_excel file "Sheet1" with
         | inl e => [error ("Error reading the file: " ++ e)]
         | inr data =>
             let data := drop_columns <$> data in
             [sidebar_selectboxes (origin_options data) (destination_options data)
                                  (fleet_options data) (month_options data)]
             ++ (let filtered_data := filtered_data s data in
                 match sidebar_summary filtered_data with
                 | Some sm => [sidebar_summary_panel sm]
                 | None => []
                 end
                 ++ [filtered_route_data filtered_data]
                 ++ (if negb (empty filtered_data) then
                       let summary := summary_by_month_and_fleet filtered_data in
                       [summary_table summary;
                        bar_chart "number_of_trips" summary;
                        bar_chart "average_profit" summary;
                        bar_chart "average_cost" summary;
                        bar_chart "total_revenue" summary]
                     else []))
         end
     end.

End Main.

(** ** Exact arithmetic *)

Definition of_nat (n : nat) : Qc := Q2Qc (inject_Z (Z.of_nat n)).

(** The sum of the values of a list of rationals, given by [g]. *)
Definition total {B} (g : B → Qc) (rows : list B) : Qc :=
  foldr (λ r acc, g r + acc)%Qc (Q2Qc 0) rows.

Definition average {B} (g : B → Qc) (rows : list B) : Qc :=
  (total g rows / of_nat (length rows))%Qc.

(** The exact operations on cells: a blank operand gives a blank result. *)
Definition q_add (x y : option Qc) : option Qc :=
  a ← x; b ← y; Some (a + b)%Qc.

Definition q_sub (x y : option Qc) : option Qc :=
  a ← x; b ← y; Some (a - b)%Qc.

(** The exact reductions, which skip blank cells ([skipna=True]): the sum of
    the cells that are not blank, zero when there is none; their mean, NaN
    when there is none. *)
Definition q_sum (col : list (option Qc)) : option Qc :=
  Some (total id (populated col)).

Definition q_mean (col : list (option Qc)) : option Qc :=
  match populated col with
  | [] => None
  | _ :: _ => Some (average id (populated col))
  end.

(** Exact rational arithmetic: what the library computes when no operation
    rounds or overflows. *)
Definition exact_arith : Arith :=
  {| num := Qc; add := q_add; sub := q_sub; sum_axis1 := q_sum;
     Series_sum := q_sum; Series_mean := q_mean;
     group_sum := q_sum; group_mean := q_mean |}.

(** The exact values of the cells of a column, under a valuation [val] of
    the machine numbers. *)
Definition vals `{Arith} (val : num → Qc) (col : list (option num))
  : list (option Qc) :=
  (λ x : option num, val <$> x) <$> col.

(** The exact value of a cell, zero for a blank one. *)
Definition value `{Arith} (val : num → Qc) (x : option num) : Qc :=
  default (Q2Qc 0) (val <$> x).

(** Derived Cost, in the words of the specification. *)
Definition derived_cost `{Arith} (val : num → Qc) (r : record) : Qc :=
  (value val (TRIP_RATE r) + value val (DISPATCH r) - value val (PROFIT r))%Qc.

(** No numeric cell of the rows is blank. *)
Definition no_blank_number `{Arith} (rows : table) : Prop :=
  ∀ r, r ∈ rows →
    is_Some (TRIP_RATE r) ∧ is_Some (DISPATCH r) ∧ is_Some (PROFIT r).

(** The operations that the two average costs of [rows] go through return
    the exact results: none rounds, wraps or overflows. *)
Definition exact_cells `{Arith} (val : num → Qc) (r : record) : Prop :=
  val <$> sum_axis1 [TRIP_RATE r; DISPATCH r]
    = q_sum [val <$> TRIP_RATE r; val <$> DISPATCH r]
  ∧ val <$> add (TRIP_RATE r) (DISPATCH r)
    = q_add (val <$> TRIP_RATE r) (val <$> DISPATCH r)
  ∧ val <$> total_cost r
    = q_sub (val <$> add (TRIP_RATE r) (DISPATCH r)) (val <$> PROFIT r).

Definition exact_means `{Arith} (val : num → Qc) (rows : table) : Prop :=
  val <$> Series_mean (TRIP_RATE_DISPATCH_sum rows)
    = q_mean (vals val (TRIP_RATE_DISPATCH_sum rows))
  ∧ val <$> Series_mean (column PROFIT rows)
    = q_mean (vals val (column PROFIT rows))
  ∧ val <$> sub (Series_mean (TRIP_RATE_DISPATCH_sum rows))
                (Series_mean (column PROFIT rows))
    = q_sub (val <$> Series_mean (TRIP_RATE_DISPATCH_sum rows))
            (val <$> Series_mean (column PROFIT rows))
  ∧ val <$> group_mean (total_cost <$> rows)
    = q_mean (vals val (total_cost <$> rows)).

Definition rounding_free `{Arith} (val : num → Qc) (rows : table) : Prop :=
  (∀ r, r ∈ rows → exact_cells val r) ∧ exact_means val rows.

(** ** The sentinel "All" among the data *)

Definition occurrences (x : string) (l : list (option string)) : nat :=
  length (filter (λ y, y = Some x) l).

(** The rows whose cell in field [f] is the literal string "All". *)
Definition rows_valued_All `{Arith} (f : field) (data : table) : table :=
  filter (λ r, cell f r = Some "All") data.

(** The behaviour expected of a table that holds the string "All" in field
    [f], as the specification words it: choosing "All" returns every row, no
    selection returns exactly the rows valued "All", and the option list
    shows "All" more than once. *)
Definition sentinel_clash_as_specified `{Arith} (f : field) (data : table) : Prop :=
  (∃ r, r ∈ data ∧ cell f r = Some "All") →
  (∀ s, (∀ f', selected f' s = Some "All") → filtered_data s data = data)
  ∧ (∀ s, filtered_data s data ≠ rows_valued_All f data)
  ∧ 1 < occurrences "All" (options f data).

(** ** The figures as the specification words them *)



(** The two formulations of the average cost of a non-empty row set agree:
    what the sidebar computes is what the aggregation computes for a group
    made of the same rows. *)
Definition average_cost_as_specified (rows : list (@record exact_arith)) : Prop :=
  rows ≠ [] →
  ∀ k, ∃ sm, sidebar_summary rows = Some sm
    ∧ Sidebar.average_cost sm
      = Grouped.average_cost (agg (k, assign_TOTAL_COST rows)).

(** ** Sample tables *)

Definition qc (n : Z) : Qc := Q2Qc (inject_Z n).

(** A row of cells, blank where [None]. *)
Definition cells (origin destination fleet month : option string)
    (rate dispatch profit : option Z) : @record exact_arith :=
  @Build_record exact_arith origin destination fleet month
    (qc <$> rate) (qc <$> dispatch) (qc <$> profit).

Definition trip (origin destination fleet month : string) (rate dispatch profit : Z)
  : @record exact_arith :=
  cells (Some origin) (Some destination) (Some fleet) (Some month)
        (Some rate) (Some dispatch) (Some profit).

Definition sample_trips : list (@record exact_arith) :=
  [trip "LAGOS" "KANO" "OWNED" "OCTOBER" 500000 20000 120000;
   trip "LAGOS" "ABUJA" "HIRED" "JULY" 300000 10000 60000;
   trip "IBADAN" "KANO" "OWNED" "SEPTEMBER" 450000 15000 90000].

Definition sample_mixed : list (@record exact_arith) :=
  [trip "LAGOS" "KANO" "OWNED" "OCTOBER" 500000 20000 120000;
   trip "LAGOS" "ABUJA" "HIRED" "NOVEMBER" 300000 10000 60000;
   trip "IBADAN" "KANO" "OWNED" "JULY" 450000 15000 90000;
   trip "LAGOS" "KANO" "HIRED" "JULY" 400000 20000 80000;
   trip "LAGOS" "KANO" "HIRED" "DECEMBER" 410000 20000 70000;
   trip "IBADAN" "KANO" "OWNED" "JULY" 470000 25000 110000].

Definition sample_All : list (@record exact_arith) :=
  [trip "All" "KANO" "OWNED" "JULY" 500000 20000 120000;
   trip "LAGOS" "ABUJA" "HIRED" "JULY" 300000 10000 60000].

(** Two trips, the ORIGIN cell of the second left blank. *)
Definition sample_blank_origin : list (@record exact_arith) :=
  [trip "LAGOS" "KANO" "OWNED" "JULY" 300 100 50;
   cells None (Some "KANO") (Some "OWNED") (Some "JULY")
         (Some 100%Z) (Some 40%Z) (Some 20%Z)].

(** Two trips, the Month cell of the second left blank. *)
Definition sample_blank_month : list (@record exact_arith) :=
  [trip "LAGOS" "KANO" "OWNED" "JULY" 300 100 50;
   cells (Some "LAGOS") (Some "KANO") (Some "OWNED") None
         (Some 100%Z) (Some 40%Z) (Some 20%Z)].

(** Two trips, the PROFIT cell of the first left blank. *)
Definition sample_blank_profit : list (@record exact_arith) :=
  [cells (Some "LAGOS") (Some "KANO") (Some "OWNED") (Some "JULY")
         (Some 50%Z) (Some 30%Z) None;
   trip "LAGOS" "KANO" "OWNED" "JULY" 200 100 30].

Definition select_destination (d : string) : selection :=
  {| selected_origin := Some "All"; selected_destination := Some d;
     selected_fleet := Some "All"; selected_month := Some "All" |}.

Definition sample_sheet : list (@raw_record exact_arith) :=
  (λ r, @Build_raw_record exact_arith
          (ORIGIN r) (DESTINATION r) (Fleet r) (Month r)
          (TRIP_RATE r) (DISPATCH r) (PROFIT r)
          (Some (qc 5000)) (Some (qc 1100))) <$> sample_mixed.

(** A reader for the examples: an empty upload is not a workbook, any other
    upload holds [sample_sheet] in its sheet "Sheet1". *)
Definition sample_reader (file : list Byte.byte) (sheet_name : string)
  : string + list (@raw_record exact_arith) :=
  match file with
  | [] => inl "File is not a zip file"
  | _ :: _ =>
      if decide (sheet_name = "Sheet1") then inr sample_sheet
      else inl "Worksheet not found"
  end.

Definition select_fleet (f : string) : selection :=
  {| selected_origin := Some "All"; selected_destination := Some "All";
     selected_fleet := Some f; selected_month := Some "All" |}.

(** ** Selections and rows used to state further properties *)

(** The selection that constrains field [f] to [v] and leaves the other
    three select boxes on "All". *)
Definition select_field (f : field) (v : string) : selection :=
  {| selected_origin := Some (match f with F_ORIGIN => v | _ => "All" end);
     selected_destination := Some (match f with F_DESTINATION => v | _ => "All" end);
     selected_fleet := Some (match f with F_Fleet => v | _ => "All" end);
     selected_month := Some (match f with F_Month => v | _ => "All" end) |}.

(** The selection of the blank entry in the box of field [f], the other
    three select boxes on "All". *)
Definition select_blank (f : field) : selection :=
  {| selected_origin := match f with F_ORIGIN => None | _ => Some "All" end;
     selected_destination :=
       match f with F_DESTINATION => None | _ => Some "All" end;
     selected_fleet := match f with F_Fleet => None | _ => Some "All" end;
     selected_month := match f with F_Month => None | _ => Some "All" end |}.

(** The selection of one month and one fleet. *)
Definition select_month_fleet (m f : string) : selection :=
  {| selected_origin := Some "All"; selected_destination := Some "All";
     selected_fleet := Some f; selected_month := Some m |}.

(** The (Month, Fleet) cells of a row of the final table. *)
Definition pair_of `{Arith} (g : Grouped.row (option string))
  : option string * string :=
  (Grouped.Month g, Grouped.Fleet g).

(** The key of a row of the filtered table, none when its Month or Fleet
    cell is blank. *)
Definition row_key `{Arith} (r : record) : option key :=
  m ← Month r; f ← Fleet r; Some (m, f).

(** The rows of [rows] that carry the key [k]. *)
Definition rows_of_key `{Arith} (rows : table) (k : key) : table :=
  filter (λ r, Month r = Some k.1 ∧ Fleet r = Some k.2) rows.

(** The aggregate row of key [k], computed from the rows of [rows] that
    carry the key. *)
Definition group_row `{Arith} (rows : table) (k : key) : Grouped.row string :=
  let grp := rows_of_key rows k in
  {| Grouped.Month := k.1; Grouped.Fleet := k.2;
     Grouped.number_of_trips := count (ORIGIN <$> grp);
     Grouped.total_revenue := group_sum (TRIP_RATE <$> grp);
     Grouped.average_profit := group_mean (PROFIT <$> grp);
     Grouped.average_cost := group_mean (total_cost <$> grp) |}.

(** The rows that the aggregate counts: Month, Fleet and ORIGIN filled in. *)
Definition counted `{Arith} (r : record) : Prop :=
  is_Some (Month r) ∧ is_Some (Fleet r) ∧ is_Some (ORIGIN r).

(** The first three columns of the final table. *)
Definition trips_of `{Arith} (g : Grouped.row (option string))
  : option string * string * nat :=
  (Grouped.Month g, Grouped.Fleet g, Grouped.number_of_trips g).

(** * Properties *)

Section Filtering.
Context {arith : Arith}.

Lemma filter_all {A} (P : A → Prop) `{∀ x, Decision (P x)} (l : list A) :
  (∀ x, x ∈ l → P x) → filter P l = l.
Proof.
  induction l as [|x l IH]; intros HP; [done|].
  rewrite filter_cons_True by (apply HP; left).
  f_equal. apply IH. intros y Hy. apply HP. by right.
Qed.

Lemma filter_none {B} (P : B → Prop) `{∀ x, Decision (P x)} (l : list B) :
  (∀ x, x ∈ l → ¬ P x) → filter P l = [].
Proof.
  induction l as [|x l IH]; intros HP; [done|].
  rewrite filter_cons_False by (apply HP; left).
  apply IH. intros y Hy. apply HP. by right.
Qed.

Lemma filter_step_filter f s df :
  filter_step f s df = filter (field_admits f s) df.
Proof.
  unfold filter_step, mask_eq, field_admits.
  destruct (decide (selected f s ≠ Some "All")) as [Hsel|Hall].
  - apply list_filter_iff. naive_solver.
  - symmetry. apply filter_all. done.
Qed.

Lemma filtered_data_filter s data :
  filtered_data s data = filter (admits s) data.
Proof.
  unfold filtered_data. rewrite !filter_step_filter, !list_filter_filter.
  apply list_filter_iff. intros r. unfold admits. tauto.
Qed.

(** C1. Filtering returns exactly the rows that carry the selected value in
    every field whose selection is not "All" (conjunction over the four
    fields, "All" imposing nothing), in their order in the input. *)
Theorem filtering_contract (data : table) (s : selection) :
  filtered_data s data = filter (admits s) data
  ∧ (∀ r, r ∈ filtered_data s data ↔ r ∈ data ∧ admits s r)
  ∧ filtered_data s data `sublist_of` data.
Proof.
  rewrite filtered_data_filter. split_and!; [done| |apply sublist_filter].
  intros r. rewrite list_elem_of_filter. tauto.
Qed.

(** C8. Whatever the selection, the filtered rows are a sub-list of the
    ingested rows; with "All" in the four fields the table comes back
    unchanged. *)
Theorem filtered_subset_and_identity (data : table) :
  (∀ s, filtered_data s data `sublist_of` data
        ∧ ∀ r, r ∈ filtered_data s data → r ∈ data)
  ∧ filtered_data all_selection data = data.
Proof.
  split.
  - intros s. rewrite filtered_data_filter. split; [apply sublist_filter|].
    intros r. rewrite list_elem_of_filter. tauto.
  - reflexivity.
Qed.

End Filtering.

Section Options.
Context {A : Type} `{EqDecision A}.
Implicit Types (l seen : list A).

Lemma unique_from_elem_of seen l x :
  x ∈ unique_from seen l ↔ x ∈ l ∧ x ∉ seen.
Proof.
  revert seen. induction l as [|y l IH]; intros seen; cbn [unique_from].
  - rewrite !elem_of_nil. tauto.
  - case_bool_decide as Hy.
    + rewrite IH, elem_of_cons. naive_solver.
    + rewrite !elem_of_cons, IH, elem_of_cons.
      destruct (decide (x = y)); naive_solver.
Qed.

Lemma unique_from_NoDup seen l : NoDup (unique_from seen l).
Proof.
  revert seen. induction l as [|y l IH]; intros seen; cbn [unique_from].
  - constructor.
  - case_bool_decide; [apply IH|]. constructor; [|apply IH].
    rewrite unique_from_elem_of, elem_of_cons. tauto.
Qed.

Lemma omap_fmap_compose {B C} (g : B → option C) (h : nat → B) (ns : list nat) :
  omap g (h <$> ns) = omap (λ n, g (h n)) ns.
Proof. induction ns as [|n ns IH]; [done|]. cbn. by rewrite IH. Qed.

Lemma unique_from_first_occurrences seen l :
  unique_from seen l =
  omap (λ i, x ← l !! i;
             if decide (x ∈ seen ∨ x ∈ take i l) then None else Some x)
       (seq 0 (length l)).
Proof.
  revert seen. induction l as [|y l IH]; intros seen; [done|].
  cbn [unique_from length seq]. rewrite <- fmap_S_seq.
  cbn [omap list_omap]. fold (@omap list _ nat A).
  rewrite omap_fmap_compose. cbn [lookup list_lookup take mbind option_bind].
  case_bool_decide as Hy.
  - rewrite decide_True by (by left). rewrite IH.
    apply list_omap_ext, Forall2_same_length_lookup_2; [done|].
    intros i a b Ha Hb. assert (a = b) as <- by congruence.
    destruct (l !! a) as [x|]; [cbn|done].
    apply decide_ext. rewrite elem_of_cons. naive_solver.
  - rewrite decide_False by (rewrite elem_of_nil; tauto).
    f_equal. rewrite IH.
    apply list_omap_ext, Forall2_same_length_lookup_2; [done|].
    intros i a b Ha Hb. assert (a = b) as <- by congruence.
    destruct (l !! a) as [x|]; [cbn|done].
    apply decide_ext. rewrite !elem_of_cons. tauto.
Qed.

Lemma unique_first_occurrences l : unique l = first_occurrences l.
Proof.
  unfold unique, first_occurrences. rewrite unique_from_first_occurrences.
  apply list_omap_ext, Forall2_same_length_lookup_2; [done|].
  intros i a b Ha Hb. assert (a = b) as <- by congruence.
  destruct (l !! a) as [x|]; [cbn|done].
  apply decide_ext. rewrite elem_of_nil. tauto.
Qed.

End Options.

Section OptionList.
Context {arith : Arith}.

(** C9. For each of the four categorical fields the option list is "All"
    followed by the distinct values of the column in the order in which
    they first occur: no value is repeated, every value of the column is
    present, and a position of the column contributes its value exactly
    when the value has not occurred before it.  (A blank cell counts as one
    value, NaN.) *)
Theorem options_first_occurrence (f : field) (data : table) :
  options f data = Some "All" :: first_occurrences (column (cell f) data)
  ∧ NoDup (first_occurrences (column (cell f) data))
  ∧ ∀ v, v ∈ first_occurrences (column (cell f) data)
         ↔ ∃ r, r ∈ data ∧ cell f r = v.
Proof.
  rewrite <- unique_first_occurrences. split_and!.
  - done.
  - apply unique_from_NoDup.
  - intros v. unfold unique, column.
    rewrite unique_from_elem_of, elem_of_nil, list_elem_of_fmap.
    naive_solver.
Qed.

End OptionList.

Section Reductions.
Context {arith : Arith}.

Lemma populated_cons_Some {B} (x : B) (col : list (option B)) :
  populated (Some x :: col) = x :: populated col.
Proof. done. Qed.

Lemma populated_cons_None {B} (col : list (option B)) :
  populated (None :: col) = populated col.
Proof. done. Qed.

Lemma count_filter {B C} (f : B → option C) (rows : list B) :
  count (f <$> rows) = length (filter (λ r, is_Some (f r)) rows).
Proof.
  unfold count. induction rows as [|r rows IH]; [done|].
  rewrite fmap_cons, filter_cons. destruct (f r) as [x|] eqn:Hf.
  - rewrite populated_cons_Some, decide_True by done. cbn. by rewrite IH.
  - rewrite populated_cons_None, decide_False by (by intros [? ?]). done.
Qed.


Lemma TOTAL_COST_assign (rows : table) :
  TOTAL_COST <$> assign_TOTAL_COST rows = total_cost <$> rows.
Proof. unfold assign_TOTAL_COST. by rewrite <- list_fmap_compose. Qed.


Lemma sidebar_summary_nonempty (rows : table) :
  rows ≠ [] →
  sidebar_summary rows =
    Some {| Sidebar.total_trips := count (column ORIGIN rows);
            Sidebar.total_revenue := Series_sum (column TRIP_RATE rows);
            Sidebar.average_profit := Series_mean (column PROFIT rows);
            Sidebar.average_cost :=
              sub (Series_mean (TRIP_RATE_DISPATCH_sum rows))
                  (Series_mean (column PROFIT rows)) |}.
Proof. by destruct rows. Qed.

End Reductions.

Section ExactValues.
Context {arith : Arith} (val : num → Qc).

Lemma total_cons {B} (g : B → Qc) (r : B) (rows : list B) :
  total g (r :: rows) = (g r + total g rows)%Qc.
Proof. done. Qed.

Lemma total_fmap {B} (g : B → Qc) (rows : list B) :
  total id (g <$> rows) = total g rows.
Proof.
  induction rows as [|r rows IH]; [done|].
  by rewrite fmap_cons, !total_cons, IH.
Qed.

Lemma total_plus {B} (g h : B → Qc) (rows : list B) :
  total (λ r, g r + h r)%Qc rows = (total g rows + total h rows)%Qc.
Proof.
  induction rows as [|r rows IH]; [cbn; ring|].
  rewrite !total_cons, IH. ring.
Qed.

Lemma total_minus {B} (g h : B → Qc) (rows : list B) :
  total (λ r, g r - h r)%Qc rows = (total g rows - total h rows)%Qc.
Proof.
  induction rows as [|r rows IH]; [cbn; ring|].
  rewrite !total_cons, IH. ring.
Qed.

Lemma total_ext {B} (g h : B → Qc) (rows : list B) :
  (∀ r, r ∈ rows → g r = h r) → total g rows = total h rows.
Proof.
  induction rows as [|r rows IH]; intros Hgh; [done|].
  rewrite !total_cons, (Hgh r) by left.
  rewrite IH; [done|]. intros y Hy. apply Hgh. by right.
Qed.

Lemma average_minus {B} (g h : B → Qc) (rows : list B) :
  average (λ r, g r - h r)%Qc rows = (average g rows - average h rows)%Qc.
Proof. unfold average. rewrite total_minus. unfold Qcdiv. ring. Qed.

Lemma average_ext {B} (g h : B → Qc) (rows : list B) :
  (∀ r, r ∈ rows → g r = h r) → average g rows = average h rows.
Proof. intros Hgh. unfold average. by rewrite (total_ext g h). Qed.

Lemma populated_Some {B C} (g : B → C) (rows : list B) :
  populated ((λ r, Some (g r)) <$> rows) = g <$> rows.
Proof.
  induction rows as [|r rows IH]; [done|].
  by rewrite !fmap_cons, populated_cons_Some, IH.
Qed.

Lemma q_sum_Some {B} (g : B → Qc) (rows : list B) :
  q_sum ((λ r, Some (g r)) <$> rows) = Some (total g rows).
Proof. unfold q_sum. by rewrite populated_Some, total_fmap. Qed.

Lemma q_mean_Some {B} (g : B → Qc) (rows : list B) :
  rows ≠ [] → q_mean ((λ r, Some (g r)) <$> rows) = Some (average g rows).
Proof.
  intros Hne. unfold q_mean. rewrite populated_Some.
  destruct rows as [|r rows]; [done|]. rewrite fmap_cons.
  unfold average. by rewrite <- fmap_cons, total_fmap, length_fmap.
Qed.

Lemma value_Some (x : option num) : is_Some x → val <$> x = Some (value val x).
Proof. by intros [y ->]. Qed.

(** The exact values of a column without blank cells. *)
Lemma vals_Some {B} (f : B → option num) (g : B → Qc) (rows : list B) :
  (∀ r, r ∈ rows → val <$> f r = Some (g r)) →
  vals val (f <$> rows) = (λ r, Some (g r)) <$> rows.
Proof.
  intros Hf. unfold vals. rewrite <- list_fmap_compose.
  apply list_fmap_ext. intros i r Hr%list_elem_of_lookup_2. by apply Hf.
Qed.

Lemma exact_row_sum (r : record) :
  is_Some (TRIP_RATE r) → is_Some (DISPATCH r) → exact_cells val r →
  val <$> sum_axis1 [TRIP_RATE r; DISPATCH r]
  = Some (value val (TRIP_RATE r) + value val (DISPATCH r))%Qc.
Proof.
  intros [t Ht] [d Hd] (Hsum & _ & _). rewrite Hsum, Ht, Hd. cbn.
  unfold q_sum. cbn. f_equal. unfold id. ring.
Qed.

Lemma exact_total_cost (r : record) :
  is_Some (TRIP_RATE r) → is_Some (DISPATCH r) → is_Some (PROFIT r) →
  exact_cells val r →
  val <$> total_cost r = Some (derived_cost val r).
Proof.
  intros [t Ht] [d Hd] [p Hp] (_ & Hadd & Hsub).
  rewrite Hsub, Hadd. unfold derived_cost. by rewrite Ht, Hd, Hp.
Qed.

(** Without blank cells and without rounding, the sidebar's average cost is
    the mean of TRIP RATE + DISPATCH less the mean of PROFIT. *)
Lemma exact_sidebar_average_cost (rows : table) :
  rows ≠ [] → no_blank_number rows → rounding_free val rows →
  val <$> sub (Series_mean (TRIP_RATE_DISPATCH_sum rows))
              (Series_mean (column PROFIT rows))
  = Some (average (λ r, value val (TRIP_RATE r) + value val (DISPATCH r))%Qc rows
          - average (λ r, value val (PROFIT r)) rows)%Qc.
Proof.
  intros Hne Hblank (Hcells & Hsums & Hprofit & Hsub & _).
  rewrite Hsub, Hsums, Hprofit. unfold TRIP_RATE_DISPATCH_sum, column.
  rewrite (vals_Some _ (λ r, value val (TRIP_RATE r) + value val (DISPATCH r))%Qc).
  2:{ intros r Hr. destruct (Hblank r Hr) as (? & ? & _).
      by apply exact_row_sum; [..|apply Hcells]. }
  rewrite (vals_Some _ (λ r, value val (PROFIT r))).
  2:{ intros r Hr. destruct (Hblank r Hr) as (_ & _ & ?). by apply value_Some. }
  by rewrite !q_mean_Some.
Qed.

(** Without blank cells and without rounding, the aggregation's average
    cost of a group made of [rows] is the mean of their Derived Cost. *)
Lemma exact_group_average_cost (rows : table) :
  rows ≠ [] → no_blank_number rows → rounding_free val rows →
  val <$> group_mean (total_cost <$> rows)
  = Some (average (derived_cost val) rows).
Proof.
  intros Hne Hblank (Hcells & _ & _ & _ & Hmean).
  rewrite Hmean, (vals_Some _ (derived_cost val)).
  - by rewrite q_mean_Some.
  - intros r Hr. destruct (Hblank r Hr) as (? & ? & ?).
    by apply exact_total_cost; [..|apply Hcells].
Qed.

End ExactValues.

Section Summary.
Context {arith : Arith}.


(** C7, amended. On a non-empty row set in which no TRIP RATE, DISPATCH or
    PROFIT cell is blank, and when none of the operations involved rounds,
    the two formulations of the average cost have the same value: the mean
    of TRIP RATE + DISPATCH less the mean of PROFIT, which the sidebar
    computes, and the mean of TRIP RATE + DISPATCH - PROFIT, which the
    aggregation computes for a group made of the same rows. *)
Theorem average_cost_formulations (val : num → Qc) (rows : table) (k : key) :
  rows ≠ [] → no_blank_number rows → rounding_free val rows →
  ∃ sm, sidebar_summary rows = Some sm
    ∧ val <$> Sidebar.average_cost sm
      = val <$> Grouped.average_cost (agg (k, assign_TOTAL_COST rows))
    ∧ val <$> Sidebar.average_cost sm
      = Some (average (λ r, value val (TRIP_RATE r) + value val (DISPATCH r))%Qc rows
              - average (λ r, value val (PROFIT r)) rows)%Qc
    ∧ val <$> Grouped.average_cost (agg (k, assign_TOTAL_COST rows))
      = Some (average (derived_cost val) rows).
Proof.
  intros Hne Hblank Hfree.
  eexists. split; [by apply sidebar_summary_nonempty|]. cbn.
  rewrite TOTAL_COST_assign.
  rewrite (exact_sidebar_average_cost val rows Hne Hblank Hfree).
  rewrite (exact_group_average_cost val rows Hne Hblank Hfree).
  split_and!; try done. f_equal. unfold derived_cost.
  by rewrite <- (average_minus
    (λ r, value val (TRIP_RATE r) + value val (DISPATCH r))%Qc
    (λ r, value val (PROFIT r))).
Qed.

End Summary.



(** C7, as stated, fails: in [sample_blank_profit] the PROFIT cell of the
    first row is blank; the sidebar's average cost is 190 - 30 = 160 and the
    aggregation's is 270. *)
Lemma average_cost_counterexample :
  ¬ average_cost_as_specified sample_blank_profit.
Proof.
  intros Hclaim.
  destruct (Hclaim ltac:(done) ("JULY", "OWNED")) as (sm & Hsm & Hcost).
  injection Hsm as <-. vm_compute in Hcost. discriminate Hcost.
Qed.

Lemma average_cost_formulations_witness :
  ∃ sm, sidebar_summary sample_mixed = Some sm
    ∧ Sidebar.average_cost sm
      = Grouped.average_cost (agg (("JULY", "OWNED"), assign_TOTAL_COST sample_mixed)).
Proof.
  destruct (@average_cost_formulations exact_arith id sample_mixed
              ("JULY", "OWNED")) as (sm & Hsm & Hcost & _).
  - done.
  - intros r Hr. unfold sample_mixed in Hr.
    rewrite !elem_of_cons, elem_of_nil in Hr.
    destruct Hr as [->|[->|[->|[->|[->|[->|[]]]]]]]; cbn; eauto.
  - split.
    + intros r Hr. unfold sample_mixed in Hr.
      rewrite !elem_of_cons, elem_of_nil in Hr.
      destruct Hr as [->|[->|[->|[->|[->|[->|[]]]]]]];
        (split_and!; vm_compute; reflexivity).
    + split_and!; vm_compute; reflexivity.
  - exists sm. split; [exact Hsm|].
    rewrite !option_fmap_id in Hcost. exact Hcost.
Defined.

Section StableSort.
Context {A : Type} (leb : A → A → bool).

Lemma insert_sorted_Permutation x l : insert_sorted leb x l ≡ₚ x :: l.
Proof.
  induction l as [|y l IH]; cbn; [done|].
  destruct (leb x y); [done|]. rewrite IH. apply Permutation_swap.
Qed.

Lemma stable_sort_Permutation l : stable_sort leb l ≡ₚ l.
Proof.
  induction l as [|x l IH]; [done|].
  cbn. by rewrite insert_sorted_Permutation, IH.
Qed.

Lemma stable_sort_elem_of l x : x ∈ stable_sort leb l ↔ x ∈ l.
Proof. by rewrite stable_sort_Permutation. Qed.

Hypothesis leb_total : ∀ x y, leb x y = true ∨ leb y x = true.
Hypothesis leb_trans : ∀ x y z, leb x y = true → leb y z = true → leb x z = true.

Lemma insert_sorted_StronglySorted x l :
  StronglySorted (λ a b, leb a b = true) l →
  StronglySorted (λ a b, leb a b = true) (insert_sorted leb x l).
Proof.
  induction 1 as [|y l Hl IH Hy]; cbn.
  - repeat constructor.
  - destruct (leb x y) eqn:Hxy.
    + constructor; [by constructor|].
      constructor; [done|]. eapply Forall_impl; [exact Hy|].
      intros z Hz. by eapply leb_trans.
    + constructor; [done|].
      rewrite insert_sorted_Permutation. constructor; [|done].
      destruct (leb_total x y) as [Hle|Hle]; [congruence|done].
Qed.

Lemma stable_sort_StronglySorted l :
  StronglySorted (λ a b, leb a b = true) (stable_sort leb l).
Proof.
  induction l as [|x l IH]; cbn; [constructor|].
  by apply insert_sorted_StronglySorted.
Qed.

End StableSort.

Section Order.
Context {arith : Arith}.

Lemma StronglySorted_impl_elem_of {A} (R R' : relation A) (l : list A) :
  (∀ a b, a ∈ l → b ∈ l → R a b → R' a b) →
  StronglySorted R l → StronglySorted R' l.
Proof.
  intros HR Hl. induction Hl as [|x l Hl IH Hx]; constructor.
  - apply IH. intros a b Ha Hb. apply HR; by right.
  - rewrite Forall_forall in *. intros y Hy.
    apply HR; [left|by right|by apply Hx].
Qed.

Lemma StronglySorted_lookup {A} (R : relation A) (l : list A) i j a b :
  StronglySorted R l → i < j → l !! i = Some a → l !! j = Some b → R a b.
Proof.
  intros Hl. revert i j. induction Hl as [|x l Hl IH Hx]; intros i j Hij Hi Hj.
  - by rewrite lookup_nil in Hi.
  - destruct j as [|j]; [lia|]. destruct i as [|i]; simplify_eq/=.
    + rewrite Forall_forall in Hx. apply Hx. by eapply list_elem_of_lookup_2.
    + apply (IH i j); [lia|done..].
Qed.

Lemma StronglySorted_sublist {A} (R : relation A) (l k : list A) :
  k `sublist_of` l → StronglySorted R l → StronglySorted R k.
Proof.
  induction 1 as [|x k l Hkl IH|x k l Hkl IH]; intros Hl.
  - constructor.
  - apply StronglySorted_inv in Hl as [Hl Hx]. constructor; [by apply IH|].
    rewrite Forall_forall in *. intros y Hy. apply Hx.
    by eapply elem_of_sublist.
  - apply StronglySorted_inv in Hl as [Hl _]. by apply IH.
Qed.

Lemma ascii_compare_refl c : Ascii.compare c c = Eq.
Proof. apply N.compare_refl. Qed.

Lemma ascii_compare_lt_trans a b c :
  Ascii.compare a b = Lt → Ascii.compare b c = Lt → Ascii.compare a c = Lt.
Proof.
  unfold Ascii.compare. rewrite !N.compare_lt_iff. apply N.lt_trans.
Qed.

Lemma string_compare_refl s : String.compare s s = Eq.
Proof. induction s as [|c s IH]; [done|]. cbn. by rewrite ascii_compare_refl. Qed.

Lemma string_compare_lt_trans s1 s2 s3 :
  String.compare s1 s2 = Lt → String.compare s2 s3 = Lt →
  String.compare s1 s3 = Lt.
Proof.
  revert s2 s3. induction s1 as [|c1 s1 IH]; intros [|c2 s2] [|c3 s3]; cbn;
    try done.
  destruct (Ascii.compare c1 c2) eqn:H12; [|clear IH|done];
    destruct (Ascii.compare c2 c3) eqn:H23; try done.
  - apply Ascii.compare_eq_iff in H12 as ->, H23 as ->.
    rewrite ascii_compare_refl. apply IH.
  - apply Ascii.compare_eq_iff in H12 as ->. by rewrite H23.
  - apply Ascii.compare_eq_iff in H23 as <-. by rewrite H12.
  - by rewrite (ascii_compare_lt_trans _ _ _ H12 H23).
Qed.

Lemma string_leb_str_le a b : String.leb a b = true ↔ str_le a b.
Proof. unfold String.leb, str_le. by destruct (String.compare a b). Qed.

Lemma str_le_cases a b : str_le a b ↔ String.compare a b = Lt ∨ a = b.
Proof.
  unfold str_le. split.
  - destruct (String.compare a b) eqn:Hc; [|by left|done].
    right. by apply String.compare_eq_iff.
  - intros [->| ->]; [done|]. by rewrite string_compare_refl.
Qed.

Lemma str_le_trans a b c : str_le a b → str_le b c → str_le a c.
Proof.
  rewrite !str_le_cases. intros [Hab| ->] [Hbc| ->]; auto.
  left. by eapply string_compare_lt_trans.
Qed.

Lemma str_le_total a b : str_le a b ∨ str_le b a.
Proof. rewrite <- !string_leb_str_le. apply String.leb_total. Qed.

Lemma row_leb_spec a b :
  row_leb a b = true ↔
  code month_order (Grouped.Month a) < code month_order (Grouped.Month b)
  ∨ (code month_order (Grouped.Month a) = code month_order (Grouped.Month b)
     ∧ str_le (Grouped.Fleet a) (Grouped.Fleet b)).
Proof.
  unfold row_leb.
  destruct (Nat.compare_spec (code month_order (Grouped.Month a))
                             (code month_order (Grouped.Month b))) as [He|Hl|Hg].
  - rewrite string_leb_str_le. split; [by right|]. intros [?|[_ ?]]; [lia|done].
  - split; [by left|done].
  - split; [done|]. intros [?|[? _]]; lia.
Qed.

Lemma row_leb_total a b : row_leb a b = true ∨ row_leb b a = true.
Proof.
  rewrite !row_leb_spec.
  destruct (str_le_total (Grouped.Fleet a) (Grouped.Fleet b));
    destruct (lt_eq_lt_dec (code month_order (Grouped.Month a))
                           (code month_order (Grouped.Month b))) as [[?|?]|?];
    auto.
Qed.

Lemma row_leb_trans a b c :
  row_leb a b = true → row_leb b c = true → row_leb a c = true.
Proof.
  rewrite !row_leb_spec. intros [?|[? ?]] [?|[? ?]]; try (left; lia).
  right. split; [congruence|]. by eapply str_le_trans.
Qed.

(** On categorical cells the sort code is the chronological rank. *)
Lemma code_Categorical m :
  code month_order (Categorical month_order m)
  = month_rank (Categorical month_order m).
Proof.
  unfold Categorical. case_decide as Hm; [|done].
  unfold month_order in Hm. rewrite !elem_of_cons, elem_of_nil in Hm.
  by destruct Hm as [->|[->|[->|[->|[]]]]].
Qed.

End Order.

Section Grouping.
Context {arith : Arith}.

Lemma elem_of_populated {B} (col : list (option B)) (x : B) :
  x ∈ populated col ↔ Some x ∈ col.
Proof. unfold populated. rewrite list_elem_of_omap. naive_solver. Qed.

Lemma group_keys_NoDup df : NoDup (group_keys df).
Proof.
  unfold group_keys. rewrite stable_sort_Permutation. apply unique_from_NoDup.
Qed.

Lemma group_keys_elem_of df k :
  k ∈ group_keys df ↔ ∃ c, c ∈ df ∧ key_of c = Some k.
Proof.
  unfold group_keys, unique.
  rewrite stable_sort_elem_of, unique_from_elem_of, elem_of_nil.
  rewrite elem_of_populated, list_elem_of_fmap. naive_solver.
Qed.

Lemma row_key_Some (r : record) (k : key) :
  row_key r = Some k ↔ Month r = Some k.1 ∧ Fleet r = Some k.2.
Proof.
  unfold row_key. destruct k as [m f], (Month r) as [m'|], (Fleet r) as [f'|];
    cbn; naive_solver.
Qed.

Lemma row_key_is_Some (r : record) :
  is_Some (row_key r) ↔ is_Some (Month r) ∧ is_Some (Fleet r).
Proof.
  unfold row_key. destruct (Month r) as [m'|], (Fleet r) as [f'|]; cbn;
    split; try (intros [[? ?] ?]; done); try (intros [? ?]; done); eauto.
Qed.

Lemma filter_fmap {B C} (h : B → C) (P : C → Prop) (Q : B → Prop)
    `{∀ y, Decision (P y)} `{∀ x, Decision (Q x)} (l : list B) :
  (∀ x, P (h x) ↔ Q x) → filter P (h <$> l) = h <$> filter Q l.
Proof.
  intros HPQ. induction l as [|x l IH]; [done|].
  rewrite fmap_cons, !filter_cons, IH.
  destruct (decide (Q x)) as [HQ|HQ].
  - rewrite decide_True by (by apply HPQ). done.
  - rewrite decide_False by (by rewrite HPQ). done.
Qed.

Lemma filter_assign_TOTAL_COST (k : key) (rows : table) :
  filter (λ c, key_of c = Some k) (assign_TOTAL_COST rows)
  = assign_TOTAL_COST (rows_of_key rows k).
Proof.
  unfold assign_TOTAL_COST, rows_of_key. apply filter_fmap. intros r.
  apply (row_key_Some r k).
Qed.

Lemma agg_group (k : key) (rows : table) :
  agg (k, assign_TOTAL_COST rows)
  = {| Grouped.Month := k.1; Grouped.Fleet := k.2;
       Grouped.number_of_trips := count (ORIGIN <$> rows);
       Grouped.total_revenue := group_sum (TRIP_RATE <$> rows);
       Grouped.average_profit := group_mean (PROFIT <$> rows);
       Grouped.average_cost := group_mean (total_cost <$> rows) |}.
Proof.
  unfold agg. cbn [fst snd]. rewrite TOTAL_COST_assign.
  unfold assign_TOTAL_COST. by rewrite <- !list_fmap_compose.
Qed.

(** The aggregate is one row per key of [group_keys], computed from the
    rows that carry the key. *)
Lemma grouped_summary_group_row (rows : table) :
  grouped_summary (assign_TOTAL_COST rows)
  = group_row rows <$> group_keys (assign_TOTAL_COST rows).
Proof.
  unfold grouped_summary, groupby.
  rewrite <- list_fmap_compose. apply list_fmap_ext. intros _ k _.
  cbn. by rewrite filter_assign_TOTAL_COST, agg_group.
Qed.

Lemma group_keys_assign (rows : table) k :
  k ∈ group_keys (assign_TOTAL_COST rows)
  ↔ ∃ r, r ∈ rows ∧ Month r = Some k.1 ∧ Fleet r = Some k.2.
Proof.
  rewrite group_keys_elem_of. unfold assign_TOTAL_COST. split.
  - intros (c & (r & -> & Hr)%list_elem_of_fmap & Hk).
    exists r. split; [done|]. by apply (row_key_Some r k).
  - intros (r & Hr & Hk). eexists. split.
    + apply list_elem_of_fmap. by exists r.
    + by apply (row_key_Some r k).
Qed.


Lemma sum_list_fmap {B} (f : B → nat) (l : list B) :
  sum_list (f <$> l) = sum_list_with f l.
Proof. induction l as [|x l IH]; [done|]. cbn. by rewrite IH. Qed.

Lemma sum_list_with_ext {B} (f g : B → nat) (l : list B) :
  (∀ x, f x = g x) → sum_list_with f l = sum_list_with g l.
Proof. intros Hfg. induction l as [|x l IH]; [done|]. cbn. by rewrite Hfg, IH. Qed.

Lemma sum_list_with_plus {B} (f g : B → nat) (l : list B) :
  sum_list_with (λ x, f x + g x) l = sum_list_with f l + sum_list_with g l.
Proof. induction l as [|x l IH]; [done|]. cbn. rewrite IH. lia. Qed.

Lemma sum_list_with_zero {B} (l : list B) : sum_list_with (λ _, 0) l = 0.
Proof. induction l as [|x l IH]; [done|]. cbn. exact IH. Qed.

Lemma sum_list_with_indicator `{EqDecision K} (k0 : K) (ks : list K) :
  NoDup ks →
  sum_list_with (λ k, if decide (k0 = k) then 1 else 0) ks
  = if decide (k0 ∈ ks) then 1 else 0.
Proof.
  induction 1 as [|k ks Hk Hks IH]; [done|].
  cbn [sum_list_with]. rewrite IH.
  destruct (decide (k0 = k)) as [->|Hne].
  - rewrite (decide_False (P := k ∈ ks)) by done.
    rewrite decide_True by left. done.
  - destruct (decide (k0 ∈ ks)) as [Hin|Hin].
    + rewrite decide_True by (by right). done.
    + rewrite decide_False; [done|]. rewrite elem_of_cons. tauto.
Qed.

(** Groups partition the rows that have a key: the numbers of their rows
    that satisfy [P] add up to the number of keyed rows that satisfy [P]. *)
Lemma group_sizes_total `{EqDecision K} {B} (kf : B → option K) (P : B → Prop)
    `{∀ x, Decision (P x)} (ks : list K) (l : list B) :
  NoDup ks → (∀ x k, x ∈ l → kf x = Some k → k ∈ ks) →
  sum_list_with (λ k, length (filter (λ x, kf x = Some k ∧ P x) l)) ks
  = length (filter (λ x, is_Some (kf x) ∧ P x) l).
Proof.
  intros Hks. induction l as [|x l IH]; intros Hin.
  - cbn. apply sum_list_with_zero.
  - assert (∀ y k, y ∈ l → kf y = Some k → k ∈ ks) as Hin'.
    { intros y k Hy. apply Hin. by right. }
    rewrite (filter_cons (λ x, is_Some (kf x) ∧ P x)).
    destruct (decide (is_Some (kf x) ∧ P x)) as [[[k0 Hk0] HP]|Hno].
    + transitivity (sum_list_with
        (λ k, (if decide (k0 = k) then 1 else 0)
              + length (filter (λ x, kf x = Some k ∧ P x) l)) ks).
      * apply sum_list_with_ext. intros k. rewrite filter_cons.
        destruct (decide (k0 = k)) as [->|Hne].
        -- by rewrite decide_True.
        -- rewrite decide_False; [done|]. intros [? _]. congruence.
      * rewrite sum_list_with_plus, sum_list_with_indicator by done.
        rewrite decide_True by (by eapply Hin; [left|]).
        by rewrite IH.
    + rewrite <- IH by done. apply sum_list_with_ext. intros k.
      rewrite filter_cons_False; [done|]. intros [Hk HP]. apply Hno.
      split; [by eexists|done].
Qed.

Lemma filter_counted (rows : table) :
  filter (λ r, is_Some (row_key r) ∧ is_Some (ORIGIN r)) rows
  = filter counted rows.
Proof.
  apply list_filter_iff. intros r. unfold counted.
  rewrite row_key_is_Some. tauto.
Qed.

(** The trip counts of the groups add up to the number of rows whose
    Month, Fleet and ORIGIN cells are filled in. *)
Lemma group_counts_total (rows : table) :
  sum_list_with (λ k, count (ORIGIN <$> rows_of_key rows k))
    (group_keys (assign_TOTAL_COST rows))
  = length (filter counted rows).
Proof.
  rewrite <- filter_counted.
  rewrite <- (group_sizes_total row_key (λ r, is_Some (ORIGIN r))
                (group_keys (assign_TOTAL_COST rows)) rows).
  - apply sum_list_with_ext. intros k.
    rewrite count_filter. unfold rows_of_key. rewrite list_filter_filter.
    f_equal. apply list_filter_iff. intros r. rewrite row_key_Some. tauto.
  - apply group_keys_NoDup.
  - intros r k Hr Hk. apply group_keys_assign. exists r.
    split; [done|]. by apply row_key_Some.
Qed.


End Grouping.



Section Chronology.
Context {arith : Arith}.

Lemma summary_elem_of (rows : table) g :
  g ∈ summary_by_month_and_fleet rows
  ↔ ∃ k, k ∈ group_keys (assign_TOTAL_COST rows)
        ∧ Grouped.Month g = Categorical month_order k.1
        ∧ Grouped.Fleet g = k.2
        ∧ g ∈ to_categorical <$> grouped_summary (assign_TOTAL_COST rows).
Proof.
  unfold summary_by_month_and_fleet, sort_values.
  rewrite stable_sort_elem_of. split.
  - intros Hg. assert (Hg2 := Hg).
    rewrite grouped_summary_group_row, <- list_fmap_compose in Hg2.
    apply list_elem_of_fmap in Hg2 as (k & -> & Hk).
    exists k. by split_and!.
  - by intros (k & _ & _ & _ & Hg).
Qed.

Lemma summary_StronglySorted (rows : table) :
  StronglySorted row_before (summary_by_month_and_fleet rows).
Proof.
  apply (StronglySorted_impl_elem_of (λ a b, row_leb a b = true)).
  - intros a b (ka & _ & Ha & _)%summary_elem_of (kb & _ & Hb & _)%summary_elem_of.
    rewrite row_leb_spec. unfold row_before.
    by rewrite Ha, Hb, !code_Categorical.
  - apply stable_sort_StronglySorted.
    + apply row_leb_total.
    + apply row_leb_trans.
Qed.

Lemma Categorical_known m c :
  Categorical month_order m = Some c → c = m ∧ m ∈ month_order.
Proof. unfold Categorical. case_decide; naive_solver. Qed.

Lemma month_rank_known m : m ∈ month_order → month_rank (Some m) < 4.
Proof.
  unfold month_order. rewrite !elem_of_cons, elem_of_nil.
  intros [->|[->|[->|[->|[]]]]]; cbn; lia.
Qed.

Lemma unique_from_sublist {A} `{EqDecision A} (seen l : list A) :
  unique_from seen l `sublist_of` l.
Proof.
  revert seen. induction l as [|x l IH]; intros seen; cbn; [done|].
  case_bool_decide; [apply sublist_cons|apply sublist_skip]; apply IH.
Qed.

Lemma unique_from_NoDup_id {A} `{EqDecision A} (seen l : list A) :
  NoDup l → (∀ x, x ∈ l → x ∉ seen) → unique_from seen l = l.
Proof.
  intros Hl. revert seen. induction Hl as [|x l Hx Hl IH]; intros seen Hseen; [done|].
  cbn. rewrite bool_decide_eq_false_2 by (apply Hseen; left).
  f_equal. apply IH. intros y Hy [->|Hin]%elem_of_cons; [done|].
  by apply (Hseen y); [right|].
Qed.

Lemma summary_fmap_Permutation {B} (φ : Grouped.row (option string) → B)
    (rows : table) :
  φ <$> summary_by_month_and_fleet rows
  ≡ₚ (λ k, φ (to_categorical (group_row rows k)))
     <$> group_keys (assign_TOTAL_COST rows).
Proof.
  unfold summary_by_month_and_fleet, sort_values.
  rewrite stable_sort_Permutation, grouped_summary_group_row.
  by rewrite <- !list_fmap_compose.
Qed.

Lemma summary_Month_column (rows : table) :
  Grouped.Month <$> summary_by_month_and_fleet rows
  ≡ₚ (λ k : key, Categorical month_order k.1)
     <$> group_keys (assign_TOTAL_COST rows).
Proof. apply (summary_fmap_Permutation Grouped.Month). Qed.

(** C4. On a non-empty filtered table the rows of the aggregate are those
    of the grouped summary, ordered by month in the chronological order
    JULY, AUGUST, SEPTEMBER, OCTOBER with the groups of any other month
    after all of these, and by fleet in lexicographic order within a month;
    when the months of the grouped rows are OCTOBER, JULY and SEPTEMBER the
    Month column reads JULY, SEPTEMBER, OCTOBER (each month once when it has
    a single fleet, and with its repetitions adjacent otherwise). *)
Theorem aggregate_chronological_order (data : table) (s : selection) :
  filtered_data s data ≠ [] →
  let fd := filtered_data s data in
  let S := summary_by_month_and_fleet fd in
  S ≡ₚ to_categorical <$> grouped_summary (assign_TOTAL_COST fd)
  ∧ (∀ g, g ∈ S →
       ∃ r m, r ∈ fd ∧ Fleet r = Some (Grouped.Fleet g) ∧ Month r = Some m
              ∧ Grouped.Month g = Categorical month_order m)
  ∧ StronglySorted row_before S
  ∧ (∀ i j a b, S !! i = Some a → S !! j = Some b →
       Grouped.Month a = None → Grouped.Month b ≠ None → j < i)
  ∧ ((∀ m, (∃ r, r ∈ fd ∧ Month r = Some m ∧ is_Some (Fleet r))
           ↔ m ∈ ["OCTOBER"; "JULY"; "SEPTEMBER"]) →
     unique (Grouped.Month <$> S)
     = [Some "JULY"; Some "SEPTEMBER"; Some "OCTOBER"]
     ∧ ((∀ r r', r ∈ fd → r' ∈ fd → Month r = Month r' → Fleet r = Fleet r') →
        Grouped.Month <$> S = [Some "JULY"; Some "SEPTEMBER"; Some "OCTOBER"])).
Proof.
  intros _ fd S. subst S. generalize fd as rows. clear. intros rows.
  assert (∀ g, g ∈ summary_by_month_and_fleet rows →
            ∃ r m, r ∈ rows ∧ Fleet r = Some (Grouped.Fleet g) ∧ Month r = Some m
                   ∧ Grouped.Month g = Categorical month_order m) as Hrows.
  { intros g (k & (r & Hr & Hm & Hf)%group_keys_assign & HM & HF & _)%summary_elem_of.
    exists r, k.1. rewrite HM, HF. done. }
  pose proof (summary_StronglySorted rows) as Hsorted.
  split_and!; [apply stable_sort_Permutation|exact Hrows|exact Hsorted| |].
  - intros i j a b Ha Hb Hna Hkb.
    destruct (lt_eq_lt_dec i j) as [[Hlt| ->]|Hgt]; [|congruence|done].
    exfalso.
    pose proof (StronglySorted_lookup _ _ _ _ _ _ Hsorted Hlt Ha Hb) as Hab.
    apply list_elem_of_lookup_2, Hrows in Hb as (r & m & _ & _ & _ & Hr).
    destruct (Grouped.Month b) as [c|] eqn:Hc; [|done].
    symmetry in Hr.
    destruct (Categorical_known _ _ Hr) as [-> Hknown%month_rank_known].
    unfold row_before in Hab. rewrite Hna, Hc in Hab.
    change (month_rank None) with 4 in Hab. destruct Hab as [?|[? _]]; lia.
  - intros Hmonths.
    assert (∀ m, m ∈ ["OCTOBER"; "JULY"; "SEPTEMBER"] →
                 Categorical month_order m = Some m) as Hknown.
    { intros m. rewrite !elem_of_cons, elem_of_nil.
      by intros [->|[->|[->|[]]]]. }
    assert (∀ k, k ∈ group_keys (assign_TOTAL_COST rows) →
                 k.1 ∈ ["OCTOBER"; "JULY"; "SEPTEMBER"]) as Hkeys.
    { intros k (r & Hr & Hm & Hf)%group_keys_assign. apply Hmonths.
      exists r. by rewrite Hf. }
    set (months := Grouped.Month <$> summary_by_month_and_fleet rows).
    assert (∀ x, x ∈ unique months
                 ↔ x ∈ [Some "JULY"; Some "SEPTEMBER"; Some "OCTOBER"]) as Helem.
    { intros x. unfold unique. rewrite unique_from_elem_of, elem_of_nil.
      unfold months. rewrite summary_Month_column, list_elem_of_fmap. split.
      - intros [(k & -> & Hk%Hkeys) _]. rewrite (Hknown _ Hk).
        rewrite !elem_of_cons, elem_of_nil in Hk. rewrite !elem_of_cons.
        destruct Hk as [->|[->|[->|[]]]]; auto.
      - intros Hx. split; [|tauto].
        assert (∃ m, x = Some m ∧ m ∈ ["OCTOBER"; "JULY"; "SEPTEMBER"])
          as (m & -> & Hm).
        { rewrite !elem_of_cons, elem_of_nil in Hx.
          destruct Hx as [->|[->|[->|[]]]];
            [exists "JULY"|exists "SEPTEMBER"|exists "OCTOBER"];
            (split; [done|rewrite !elem_of_cons; auto]). }
        pose proof (Hknown _ Hm) as Hcat.
        apply Hmonths in Hm as (r & Hr & HM & [f Hf]).
        exists (m, f). split; [cbn; by rewrite Hcat|].
        apply group_keys_assign. by exists r. }
    assert (unique months = [Some "JULY"; Some "SEPTEMBER"; Some "OCTOBER"])
      as Hunique; [|split; [exact Hunique|]].
    2:{ intros Hfleet. rewrite <- Hunique. symmetry.
        apply unique_from_NoDup_id; [|by intros x _ ?%elem_of_nil].
        unfold months. rewrite summary_Month_column.
        apply NoDup_fmap_2_strong; [|apply group_keys_NoDup].
        intros [m1 f1] [m2 f2] Hk1 Hk2 Hcat.
        rewrite (Hknown _ (Hkeys _ Hk1)), (Hknown _ (Hkeys _ Hk2)) in Hcat.
        apply group_keys_assign in Hk1 as (r1 & Hr1 & Hm1 & Hf1).
        apply group_keys_assign in Hk2 as (r2 & Hr2 & Hm2 & Hf2).
        cbn in *. injection Hcat as <-.
        assert (Fleet r1 = Fleet r2) as Hf by (apply Hfleet; congruence).
        f_equal. congruence. }
    set (R := λ x y : option string, (month_rank x <= month_rank y)%nat).
    apply (StronglySorted_unique_strong R).
    + intros x1 x2 Hx1%Helem Hx2 H12 H21. unfold R in *.
      rewrite !elem_of_cons, elem_of_nil in Hx1, Hx2.
      destruct Hx1 as [->|[->|[->|[]]]], Hx2 as [->|[->|[->|[]]]];
        cbn in *; (done || lia).
    + apply (StronglySorted_sublist R months); [apply unique_from_sublist|].
      unfold months. eapply StronglySorted_fmap; [|exact Hsorted].
      intros a b. unfold row_before, R. lia.
    + unfold R. repeat constructor; cbn; lia.
    + apply NoDup_Permutation; [apply unique_from_NoDup| |exact Helem].
      repeat constructor; rewrite ?elem_of_cons, ?elem_of_nil; naive_solver.
Qed.

End Chronology.

Lemma aggregate_chronological_order_witness :
  Grouped.Month
    <$> summary_by_month_and_fleet (filtered_data all_selection sample_trips)
  = [Some "JULY"; Some "SEPTEMBER"; Some "OCTOBER"].
Proof.
  destruct (aggregate_chronological_order sample_trips all_selection)
    as (_ & _ & _ & _ & Hmonths); [done|].
  change (filtered_data all_selection sample_trips) with sample_trips in *.
  destruct Hmonths as [_ Hcolumn].
  - intros m. rewrite !elem_of_cons, elem_of_nil. split.
    + intros (r & Hr & Hm & _). unfold sample_trips in Hr.
      rewrite !elem_of_cons, elem_of_nil in Hr.
      destruct Hr as [->|[->|[->|[]]]]; injection Hm as <-; auto.
    + unfold sample_trips.
      intros [->|[->|[->|[]]]];
        [exists (trip "LAGOS" "KANO" "OWNED" "OCTOBER" 500000 20000 120000)
        |exists (trip "LAGOS" "ABUJA" "HIRED" "JULY" 300000 10000 60000)
        |exists (trip "IBADAN" "KANO" "OWNED" "SEPTEMBER" 450000 15000 90000)];
        (split; [rewrite !elem_of_cons; auto|split; [reflexivity|by eexists]]).
  - apply Hcolumn. intros r r' Hr Hr'.
    unfold sample_trips in Hr, Hr'. rewrite !elem_of_cons, elem_of_nil in Hr, Hr'.
    destruct Hr as [->|[->|[->|[]]]], Hr' as [->|[->|[->|[]]]]; done.
Defined.

Section Page.
Context {arith : Arith}.

(** C6. When the upload cannot be read as a workbook with a sheet "Sheet1",
    the page shows the error message after its heading and nothing else: no
    filter, table, summary or chart is rendered for that upload. *)
Theorem unreadable_upload_halts
    (read_excel : list Byte.byte → string → string + list raw_record)
    (file : list Byte.byte) (s : selection) (e : string) :
  read_excel file "Sheet1" = inl e →
  main read_excel (Some file) s =
    [title "VPC Route Cost Dashboard";
     write "This dashboard allows users to search routes by origin, destination, fleet, and month.";
     error ("Error reading the file: " ++ e)]
  ∧ error ("Error reading the file: " ++ e) ∈ main read_excel (Some file) s
  ∧ ∀ x, x ∈ main read_excel (Some file) s → shows_data x = false.
Proof.
  intros Hread. unfold main. rewrite Hread. split_and!; [done|cbn; rewrite !elem_of_cons; auto|].
  intros x Hx. cbn in Hx. rewrite !elem_of_cons, elem_of_nil in Hx.
  by destruct Hx as [->|[->|[->|[]]]].
Qed.

(** C5. When the selection leaves no row, the page carries the filters and
    the (empty) filtered table only: no summary scalars, no aggregate table
    and no chart are produced, and no error is shown. *)
Theorem empty_result_suppresses_sections
    (read_excel : list Byte.byte → string → string + list raw_record)
    (file : list Byte.byte) (s : selection) (raw : list raw_record) :
  read_excel file "Sheet1" = inr raw →
  filtered_data s (drop_columns <$> raw) = [] →
  sidebar_summary (filtered_data s (drop_columns <$> raw)) = None
  ∧ (∀ x, x ∈ main read_excel (Some file) s →
          is_dependent x = false ∧ is_error x = false)
  ∧ main read_excel (Some file) s =
      [title "VPC Route Cost Dashboard";
       write "This dashboard allows users to search routes by origin, destination, fleet, and month.";
       sidebar_selectboxes (origin_options (drop_columns <$> raw))
                           (destination_options (drop_columns <$> raw))
                           (fleet_options (drop_columns <$> raw))
                           (month_options (drop_columns <$> raw));
       filtered_route_data []].
Proof.
  intros Hread Hempty.
  assert (main read_excel (Some file) s =
      [title "VPC Route Cost Dashboard";
       write "This dashboard allows users to search routes by origin, destination, fleet, and month.";
       sidebar_selectboxes (origin_options (drop_columns <$> raw))
                           (destination_options (drop_columns <$> raw))
                           (fleet_options (drop_columns <$> raw))
                           (month_options (drop_columns <$> raw));
       filtered_route_data []]) as Hmain.
  { unfold main. rewrite Hread. cbn zeta. by rewrite Hempty. }
  split_and!; [by rewrite Hempty| |done].
  intros x. rewrite Hmain, !elem_of_cons, elem_of_nil.
  intros [->|[->|[->|[->|[]]]]]; done.
Qed.

End Page.

Lemma unreadable_upload_halts_witness :
  sample_reader [] "Sheet1" = inl "File is not a zip file"
  ∧ main sample_reader (Some []) all_selection =
      [title "VPC Route Cost Dashboard";
       write "This dashboard allows users to search routes by origin, destination, fleet, and month.";
       error "Error reading the file: File is not a zip file"].
Proof.
  split; [reflexivity|].
  apply (unreadable_upload_halts sample_reader [] all_selection
           "File is not a zip file").
  reflexivity.
Defined.

Lemma empty_result_suppresses_sections_witness :
  filtered_data (select_fleet "LEASED") (drop_columns <$> sample_sheet) = []
  ∧ ∀ x, x ∈ main sample_reader (Some [Byte.x50; Byte.x4b]) (select_fleet "LEASED") →
         is_dependent x = false ∧ is_error x = false.
Proof.
  split; [reflexivity|].
  apply (empty_result_suppresses_sections sample_reader [Byte.x50; Byte.x4b]
           (select_fleet "LEASED") sample_sheet); reflexivity.
Defined.

Section Sentinel.
Context {arith : Arith}.

Lemma admits_field s r f : admits s r → field_admits f s r.
Proof. intros (? & ? & ? & ?). by destruct f. Qed.

Lemma admits_fields s r : admits s r ↔ ∀ f, field_admits f s r.
Proof.
  split; [intros H f; by apply admits_field|].
  intros H. unfold admits. split_and!; apply H.
Qed.

Lemma occurrences_absent x (l : list (option string)) :
  Some x ∉ l → occurrences x l = 0.
Proof.
  unfold occurrences. induction l as [|z l IH]; [done|].
  intros [Hne Hx]%not_elem_of_cons.
  rewrite filter_cons_False by congruence. by apply IH.
Qed.

Lemma occurrences_NoDup x (l : list (option string)) :
  NoDup l → Some x ∈ l → occurrences x l = 1.
Proof.
  induction 1 as [|y l Hy Hl IH]; [by intros ?%elem_of_nil|].
  unfold occurrences in *. rewrite filter_cons.
  intros [<-|Hx]%elem_of_cons.
  - rewrite decide_True by done. cbn [length].
    pose proof (occurrences_absent x l Hy) as H0. unfold occurrences in H0.
    by rewrite H0.
  - rewrite decide_False by (intros ->; done). by apply IH.
Qed.

(** C10, amended. In a table holding the string "All" in a categorical
    field, choosing "All" for that field constrains nothing: the result is
    decided by the other three fields, and is the whole table when they are
    "All" too.  The field's own selector cannot single out the rows valued
    "All": a selection that returns exactly those rows has "All" in that
    field.  The option list of the field shows "All" twice. *)
Theorem sentinel_not_distinguished (f : field) (data : table) :
  (∃ r, r ∈ data ∧ cell f r = Some "All") →
  (∀ s, selected f s = Some "All" →
     ∀ r, r ∈ filtered_data s data
          ↔ r ∈ data ∧ ∀ f', f' ≠ f → field_admits f' s r)
  ∧ (∀ s, (∀ f', selected f' s = Some "All") → filtered_data s data = data)
  ∧ (∀ s, filtered_data s data = rows_valued_All f data →
          selected f s = Some "All")
  ∧ occurrences "All" (options f data) = 2.
Proof.
  intros (r0 & Hr0 & Hall). split_and!.
  - intros s Hs r. rewrite filtered_data_filter, list_elem_of_filter, admits_fields.
    split; intros [H1 H2].
    + split; [done|]. intros f' _. apply H1.
    + split; [|done]. intros f'.
      assert (f' = f ∨ f' ≠ f) as [->|Hne] by (destruct f', f; auto).
      * by intros ?.
      * by apply H2.
  - intros s Hs. rewrite filtered_data_filter. apply filter_all.
    intros r _. apply admits_fields. intros f' Hsel. by destruct Hsel.
  - intros s Heq. destruct (decide (selected f s = Some "All")) as [|Hsel]; [done|].
    exfalso.
    assert (r0 ∈ filtered_data s data) as Hin.
    { rewrite Heq. by apply list_elem_of_filter. }
    rewrite filtered_data_filter in Hin.
    apply list_elem_of_filter in Hin as [Hadm _].
    apply (admits_field _ _ f) in Hadm. destruct (Hadm Hsel) as [_ Hcell].
    congruence.
  - unfold options, occurrences. cbn [app]. rewrite filter_cons_True by done.
    cbn [length]. f_equal. apply occurrences_NoDup; [apply unique_from_NoDup|].
    unfold unique. rewrite unique_from_elem_of, elem_of_nil.
    split; [|tauto]. apply list_elem_of_fmap. by exists r0.
Qed.

End Sentinel.

(** C10, as stated, fails: in [sample_All] the rows valued "All" in ORIGIN
    are exactly the rows bound for KANO, and selecting that destination
    returns them. *)
Lemma sentinel_clash_counterexample :
  ¬ sentinel_clash_as_specified F_ORIGIN sample_All.
Proof.
  intros Hclaim. destruct Hclaim as (_ & Hnone & _).
  - eexists. split; [apply list_elem_of_here|done].
  - by apply (Hnone (select_destination "KANO")).
Qed.

Lemma sentinel_not_distinguished_witness :
  occurrences "All" (options F_ORIGIN sample_All) = 2.
Proof.
  apply (sentinel_not_distinguished F_ORIGIN sample_All).
  eexists. split; [apply list_elem_of_here|reflexivity].
Defined.

(** * Further properties of the code *)

Section FilterAlgebra.
Context {arith : Arith}.

Lemma admits_narrow s s' r :
  (∀ f, selected f s ≠ Some "All" → selected f s' = selected f s) →
  admits s' r → admits s r.
Proof.
  intros Hs Hadm. apply admits_fields. intros f Hsel.
  pose proof (admits_field _ _ f Hadm) as Hf. unfold field_admits in Hf.
  rewrite <- (Hs f Hsel). apply Hf. by rewrite (Hs f Hsel).
Qed.

Lemma selected_select_field f v : selected f (select_field f v) = Some v.
Proof. by destruct f. Qed.

Lemma selected_select_field_ne f f' v :
  f ≠ f' → selected f' (select_field f v) = Some "All".
Proof. by destruct f, f'. Qed.

Lemma admits_select_field f v r :
  v ≠ "All" → admits (select_field f v) r ↔ cell f r = Some v.
Proof.
  intros Hv. rewrite admits_fields. unfold field_admits. split.
  - intros H. specialize (H f). rewrite selected_select_field in H.
    apply H. congruence.
  - intros Hcell f'.
    assert (f = f' ∨ f ≠ f') as [<-|Hne] by (destruct f, f'; auto).
    + rewrite selected_select_field. by intros _.
    + rewrite (selected_select_field_ne _ _ _ Hne). by intros [].
Qed.

(** X1. Filtering (lines 40-48) is idempotent: filtering the filtered table
    by the same selection changes nothing. *)
Theorem filtering_idempotent (data : table) (s : selection) :
  filtered_data s (filtered_data s data) = filtered_data s data.
Proof.
  rewrite !filtered_data_filter, list_filter_filter.
  apply list_filter_iff. tauto.
Qed.

(** X2. The order of the four [if] steps of lines 41-48 is immaterial: two
    steps commute, also for different selections, and so do two whole
    filters. *)
Theorem filter_steps_commute (data : table) (s1 s2 : selection) (f g : field) :
  filter_step f s1 (filter_step g s2 data) = filter_step g s2 (filter_step f s1 data)
  ∧ filtered_data s1 (filtered_data s2 data) = filtered_data s2 (filtered_data s1 data).
Proof.
  rewrite !filter_step_filter, !filtered_data_filter, !list_filter_filter.
  split; apply list_filter_iff; tauto.
Qed.

(** X3. Narrowing a selection narrows the result: when [s'] keeps every
    constraint of [s], the rows of [s'] are a sub-list of the rows of [s],
    and are the rows obtained by filtering the result of [s] by [s']. *)
Theorem filtering_narrows (data : table) (s s' : selection) :
  (∀ f, selected f s ≠ Some "All" → selected f s' = selected f s) →
  filtered_data s' data `sublist_of` filtered_data s data
  ∧ filtered_data s' (filtered_data s data) = filtered_data s' data.
Proof.
  intros Hs.
  assert (filtered_data s' (filtered_data s data) = filtered_data s' data) as Heq.
  { rewrite !filtered_data_filter, list_filter_filter. apply list_filter_iff.
    intros r. split; [tauto|]. intros H. split; [done|]. by eapply admits_narrow. }
  split; [|done]. rewrite <- Heq, (filtered_data_filter s'). apply sublist_filter.
Qed.

(** X4. Filtering works row by row: the filter of two tables put end to end
    is the two filters put end to end. *)
Theorem filtering_app (d1 d2 : table) (s : selection) :
  filtered_data s (d1 ++ d2) = filtered_data s d1 ++ filtered_data s d2.
Proof. rewrite !filtered_data_filter. apply filter_app. Qed.

(** X5. Every entry of an option list other than "All" (lines 27-30), chosen
    alone in its select box, returns exactly the rows that carry it, and at
    least one; a value absent from the column returns no row. *)
Theorem option_selects_its_rows (f : field) (v : string) (data : table) :
  v ≠ "All" →
  filtered_data (select_field f v) data = filter (λ r, cell f r = Some v) data
  ∧ (filtered_data (select_field f v) data ≠ [] ↔ Some v ∈ options f data).
Proof.
  intros Hv.
  assert (filtered_data (select_field f v) data
          = filter (λ r, cell f r = Some v) data)
    as Heq.
  { rewrite filtered_data_filter. apply list_filter_iff. intros r.
    by apply admits_select_field. }
  split; [done|]. rewrite Heq. unfold options, unique, column. cbn [app].
  rewrite elem_of_cons, unique_from_elem_of, elem_of_nil, list_elem_of_fmap.
  split.
  - intros Hne. right. split; [|tauto].
    destruct (filter (λ r, cell f r = Some v) data) as [|r l] eqn:Hfl; [done|].
    assert (r ∈ filter (λ r, cell f r = Some v) data) as Hr by (rewrite Hfl; left).
    apply list_elem_of_filter in Hr as [Hc Hr]. by exists r.
  - intros [[= ->]|[(r & Hc & Hr) _]]; [done|]. intros Hnil.
    by eapply (filter_nil_not_elem_of _ _ r); [exact Hnil| |exact Hr].
Qed.

(** X16. A column with a blank cell puts the blank entry (NaN) among the
    options of its select box (lines 27-30); choosing that entry returns no
    row, whatever the other three boxes hold, since NaN equals no cell
    (lines 40-48). *)
Theorem blank_entry_selects_nothing (f : field) (data : table) (s : selection) :
  selected f s = None →
  filtered_data s data = []
  ∧ (None ∈ options f data ↔ ∃ r, r ∈ data ∧ cell f r = None).
Proof.
  intros Hsel. split.
  - rewrite filtered_data_filter. apply filter_none. intros r _ Hadm.
    apply (admits_field _ _ f) in Hadm.
    destruct Hadm as [[v Hv] _]; [by rewrite Hsel|]. congruence.
  - unfold options, unique, column. cbn [app].
    rewrite elem_of_cons, unique_from_elem_of, elem_of_nil, list_elem_of_fmap.
    naive_solver.
Qed.

End FilterAlgebra.

Lemma filtering_narrows_witness :
  filtered_data (select_month_fleet "JULY" "OWNED") sample_mixed
  `sublist_of` filtered_data (select_fleet "OWNED") sample_mixed.
Proof.
  apply (filtering_narrows sample_mixed (select_fleet "OWNED")
           (select_month_fleet "JULY" "OWNED")).
  intros f. destruct f; cbn; done.
Defined.

Lemma option_selects_its_rows_witness :
  filtered_data (select_field F_DESTINATION "ABUJA") sample_mixed ≠ []
  ↔ Some "ABUJA" ∈ options F_DESTINATION sample_mixed.
Proof.
  apply (option_selects_its_rows F_DESTINATION "ABUJA" sample_mixed). done.
Defined.

Lemma blank_entry_selects_nothing_witness :
  filtered_data (select_blank F_ORIGIN) sample_blank_origin = []
  ∧ None ∈ options F_ORIGIN sample_blank_origin.
Proof.
  destruct (blank_entry_selects_nothing F_ORIGIN sample_blank_origin
              (select_blank F_ORIGIN)) as [Hnil Hopt]; [reflexivity|].
  split; [exact Hnil|]. apply Hopt.
  eexists. split; [apply list_elem_of_further, list_elem_of_here|reflexivity].
Defined.

Section Pairs.
Context {arith : Arith}.

Lemma NoDup_fmap_inj_on {B C} (h : B → C) (l : list B) x y :
  NoDup (h <$> l) → x ∈ l → y ∈ l → h x = h y → x = y.
Proof.
  induction l as [|z l IH]; [by intros _ ?%elem_of_nil|].
  rewrite fmap_cons, NoDup_cons, !elem_of_cons.
  intros [Hz Hl] [->|Hx] [->|Hy] Hxy; [done| | |by apply IH].
  - destruct Hz. rewrite Hxy. by apply list_elem_of_fmap_2.
  - destruct Hz. rewrite <- Hxy. by apply list_elem_of_fmap_2.
Qed.

Lemma NoDup_all_equal {B} (l : list B) (x0 : B) :
  NoDup l → (∀ x, x ∈ l ↔ x = x0) → l = [x0].
Proof.
  intros Hl Hx. apply Permutation_singleton_r, NoDup_Permutation; [done|apply NoDup_singleton|].
  intros x. rewrite Hx, list_elem_of_singleton. done.
Qed.

Lemma pair_of_summary (rows : table) :
  pair_of <$> summary_by_month_and_fleet rows
  ≡ₚ (λ k : key, (Categorical month_order k.1, k.2))
     <$> group_keys (assign_TOTAL_COST rows).
Proof. apply (summary_fmap_Permutation pair_of). Qed.

Lemma unique_from_length {B} `{EqDecision B} (seen l : list B) :
  (length (unique_from seen l) <= length l)%nat.
Proof. apply sublist_length, unique_from_sublist. Qed.

Lemma key_of_assign (rows : table) :
  key_of <$> assign_TOTAL_COST rows = row_key <$> rows.
Proof. unfold assign_TOTAL_COST. by rewrite <- list_fmap_compose. Qed.

Lemma populated_length {B} (col : list (option B)) :
  (length (populated col) <= length col)%nat.
Proof.
  induction col as [|[x|] col IH]; [done| |].
  - rewrite populated_cons_Some. cbn. lia.
  - rewrite populated_cons_None. cbn. lia.
Qed.

Lemma summary_length (rows : table) :
  length (summary_by_month_and_fleet rows)
  = length (unique (populated (row_key <$> rows))).
Proof.
  unfold summary_by_month_and_fleet, sort_values.
  rewrite (Permutation_length (stable_sort_Permutation _ _)), length_fmap.
  rewrite grouped_summary_group_row, length_fmap. unfold group_keys.
  rewrite (Permutation_length (stable_sort_Permutation _ _)).
  by rewrite key_of_assign.
Qed.

Lemma summary_trips_total (rows : table) :
  sum_list (Grouped.number_of_trips <$> summary_by_month_and_fleet rows)
  = length (filter counted rows).
Proof.
  rewrite (summary_fmap_Permutation Grouped.number_of_trips).
  rewrite sum_list_fmap. apply group_counts_total.
Qed.

Lemma filter_length_impl {B} (P Q : B → Prop)
    `{∀ x, Decision (P x)} `{∀ x, Decision (Q x)} (l : list B) :
  (∀ x, P x → Q x) →
  (length (filter P l) <= length (filter Q l))%nat
  ∧ (length (filter P l) = length (filter Q l) ↔ ∀ x, x ∈ l → Q x → P x).
Proof.
  intros HPQ. induction l as [|x l [IHle IHeq]].
  - split; [done|]. split; [by intros _ ? ?%elem_of_nil|done].
  - rewrite !filter_cons.
    destruct (decide (P x)) as [HP|HP], (decide (Q x)) as [HQ|HQ];
      try (by destruct HQ; apply HPQ); cbn [length].
    + split; [lia|]. split.
      * intros Heq y [->|Hy]%elem_of_cons; [done|]. apply IHeq; [lia|done].
      * intros Hall. f_equal. apply IHeq. intros y Hy. apply Hall. by right.
    + split; [lia|]. split; [lia|]. intros Hall. destruct HP. apply Hall; [left|done].
    + split; [done|]. split.
      * intros Heq y [->|Hy]%elem_of_cons; [done|]. by apply IHeq.
      * intros Hall. apply IHeq. intros y Hy. apply Hall. by right.
Qed.

(** X8. When every month that occurs in the table is one of the four of
    [month_order], no (Month, Fleet) pair occurs twice in the sorted table
    (lines 80-82). *)
Theorem known_months_pairs_unique (rows : table) :
  (∀ r m, r ∈ rows → Month r = Some m → m ∈ month_order) →
  NoDup (pair_of <$> summary_by_month_and_fleet rows).
Proof.
  intros Hknown. rewrite pair_of_summary.
  apply NoDup_fmap_2_strong; [|apply group_keys_NoDup].
  intros [m1 f1] [m2 f2]
    (r1 & Hr1 & Hm1 & Hf1)%group_keys_assign
    (r2 & Hr2 & Hm2 & Hf2)%group_keys_assign [= Hcat Hf].
  cbn in *. unfold Categorical in Hcat.
  rewrite !decide_True in Hcat by eauto. congruence.
Qed.

(** X9. The categorical conversion of line 81 merges the months it does not
    know: when two rows of different months outside [month_order] share a
    fleet, the sorted table holds the pair (NaN, fleet) more than once. *)
Theorem unknown_months_pairs_collide (rows : table) (r1 r2 : record)
    (m1 m2 f : string) :
  r1 ∈ rows → r2 ∈ rows →
  Month r1 = Some m1 → Month r2 = Some m2 →
  m1 ∉ month_order → m2 ∉ month_order → m1 ≠ m2 →
  Fleet r1 = Some f → Fleet r2 = Some f →
  ¬ NoDup (pair_of <$> summary_by_month_and_fleet rows)
  ∧ 1 < length (filter (λ p, p = (None, f))
                  (pair_of <$> summary_by_month_and_fleet rows)).
Proof.
  intros Hr1 Hr2 HM1 HM2 Hm1 Hm2 Hne HF1 HF2.
  assert ((m1, f) ∈ group_keys (assign_TOTAL_COST rows)) as Hk1.
  { apply group_keys_assign. by exists r1. }
  assert ((m2, f) ∈ group_keys (assign_TOTAL_COST rows)) as Hk2.
  { apply group_keys_assign. by exists r2. }
  assert (¬ NoDup (pair_of <$> summary_by_month_and_fleet rows)) as Hdup.
  { rewrite pair_of_summary. intros Hnd. apply Hne.
    assert ((m1, f) = (m2, f)) as [= ?]; [|done].
    apply (NoDup_fmap_inj_on _ _ _ _ Hnd Hk1 Hk2). cbn.
    unfold Categorical. by rewrite !decide_False by done. }
  split; [done|].
  set (P := λ p : option string * string, p = (None, f)).
  assert (length (filter P (pair_of <$> summary_by_month_and_fleet rows))
          = length (filter P ((λ k : key, (Categorical month_order k.1, k.2))
                                <$> group_keys (assign_TOTAL_COST rows)))) as ->.
  { apply Permutation_length. by rewrite pair_of_summary. }
  apply list_elem_of_split in Hk1 as (l1 & l2 & Hsplit).
  rewrite Hsplit in Hk2 |- *.
  assert (P (Categorical month_order (m1, f).1, (m1, f).2)) as HP1.
  { unfold P, Categorical. cbn. by rewrite decide_False. }
  assert (P (Categorical month_order (m2, f).1, (m2, f).2)) as HP2.
  { unfold P, Categorical. cbn. by rewrite decide_False. }
  rewrite fmap_app, fmap_cons, filter_app, filter_cons_True, length_app by done.
  cbn [length].
  apply elem_of_app in Hk2 as [Hin|[[= ?]|Hin]%elem_of_cons]; [|done|].
  - apply list_elem_of_split in Hin as (l3 & l4 & ->).
    rewrite fmap_app, fmap_cons, filter_app, filter_cons_True, length_app by done.
    cbn [length]. lia.
  - apply list_elem_of_split in Hin as (l3 & l4 & ->).
    rewrite fmap_app, fmap_cons, filter_app, filter_cons_True, length_app by done.
    cbn [length]. lia.
Qed.

(** X10. The aggregate has one row per distinct (Month, Fleet) pair among
    the filtered rows whose Month and Fleet cells are both filled in: at
    most as many rows as the filtered table, and at least one exactly when
    some row has both cells filled in. *)
Theorem summary_row_count (rows : table) :
  rows ≠ [] →
  length (summary_by_month_and_fleet rows)
  = length (unique (populated (row_key <$> rows)))
  ∧ (length (summary_by_month_and_fleet rows) <= length rows)%nat
  ∧ ((1 <= length (summary_by_month_and_fleet rows))%nat
     ↔ ∃ r, r ∈ rows ∧ is_Some (Month r) ∧ is_Some (Fleet r)).
Proof.
  intros _. split_and!.
  - apply summary_length.
  - rewrite summary_length. unfold unique.
    etrans; [apply unique_from_length|]. etrans; [apply populated_length|].
    by rewrite length_fmap.
  - unfold summary_by_month_and_fleet, sort_values.
    rewrite (Permutation_length (stable_sort_Permutation _ _)), length_fmap.
    rewrite grouped_summary_group_row, length_fmap. split.
    + destruct (group_keys (assign_TOTAL_COST rows)) as [|k ks] eqn:Hks;
        [cbn; lia|]. intros _.
      assert (k ∈ group_keys (assign_TOTAL_COST rows)) as Hk
        by (rewrite Hks; left).
      apply group_keys_assign in Hk as (r & Hr & Hm & Hf).
      exists r. by rewrite Hm, Hf.
    + intros (r & Hr & [m Hm] & [f Hf]).
      assert ((m, f) ∈ group_keys (assign_TOTAL_COST rows)) as Hk.
      { apply group_keys_assign. by exists r. }
      destruct (group_keys (assign_TOTAL_COST rows)); [by apply elem_of_nil in Hk|].
      cbn. lia.
Qed.

(** X6. The trip counts of the aggregate table reconcile with the sidebar:
    they add up to the number of filtered rows whose Month, Fleet and ORIGIN
    cells are all filled in, which is never more than Total Trips and equals
    it exactly when every row with an ORIGIN has a Month and a Fleet. *)
Theorem table_trips_within_sidebar (rows : table) (sm : Sidebar.summary) :
  sidebar_summary rows = Some sm →
  sum_list (Grouped.number_of_trips <$> summary_by_month_and_fleet rows)
  = length (filter counted rows)
  ∧ (sum_list (Grouped.number_of_trips <$> summary_by_month_and_fleet rows)
     <= Sidebar.total_trips sm)%nat
  ∧ (sum_list (Grouped.number_of_trips <$> summary_by_month_and_fleet rows)
     = Sidebar.total_trips sm
     ↔ ∀ r, r ∈ rows → is_Some (ORIGIN r) →
            is_Some (Month r) ∧ is_Some (Fleet r)).
Proof.
  intros Hsm. assert (rows ≠ []) as Hne by (by intros ->).
  rewrite sidebar_summary_nonempty in Hsm by done. injection Hsm as <-.
  cbn [Sidebar.total_trips]. unfold column.
  rewrite summary_trips_total, count_filter.
  pose proof (filter_length_impl counted (λ r, is_Some (ORIGIN r)) rows)
    as [Hle Heq]; [by intros r (_ & _ & ?)|].
  split_and!; [done|exact Hle|]. rewrite Heq. unfold counted.
  split; intros Hall r Hr Ho; specialize (Hall r Hr Ho); tauto.
Qed.

End Pairs.

Lemma known_months_pairs_unique_witness :
  NoDup (pair_of <$> summary_by_month_and_fleet sample_trips).
Proof.
  apply (known_months_pairs_unique sample_trips). intros r m Hr.
  unfold sample_trips in Hr. rewrite !elem_of_cons, elem_of_nil in Hr.
  unfold month_order.
  destruct Hr as [->|[->|[->|[]]]]; cbn; intros [= <-];
    rewrite !elem_of_cons; auto.
Defined.

Lemma unknown_months_pairs_collide_witness :
  ¬ NoDup (pair_of <$> summary_by_month_and_fleet sample_mixed).
Proof.
  apply (unknown_months_pairs_collide sample_mixed
           (trip "LAGOS" "ABUJA" "HIRED" "NOVEMBER" 300000 10000 60000)
           (trip "LAGOS" "KANO" "HIRED" "DECEMBER" 410000 20000 70000)
           "NOVEMBER" "DECEMBER" "HIRED").
  - unfold sample_mixed. rewrite !elem_of_cons. auto.
  - unfold sample_mixed. rewrite !elem_of_cons. auto 10.
  - done.
  - done.
  - unfold month_order. rewrite !elem_of_cons, elem_of_nil.
    intros [?|[?|[?|[?|[]]]]]; done.
  - unfold month_order. rewrite !elem_of_cons, elem_of_nil.
    intros [?|[?|[?|[?|[]]]]]; done.
  - done.
  - done.
  - done.
Defined.

Lemma summary_row_count_witness :
  (length (summary_by_month_and_fleet sample_blank_month)
   <= length sample_blank_month)%nat.
Proof. apply (summary_row_count sample_blank_month). done. Defined.

Lemma table_trips_within_sidebar_witness :
  ∃ sm, sidebar_summary sample_blank_month = Some sm
    ∧ (sum_list (Grouped.number_of_trips
                   <$> summary_by_month_and_fleet sample_blank_month)
       <= Sidebar.total_trips sm)%nat.
Proof.
  eexists. split; [reflexivity|].
  eapply (table_trips_within_sidebar sample_blank_month). reflexivity.
Defined.

Section SingleGroup.
Context {arith : Arith}.

Lemma filtered_month_fleet (data : table) (m f : string) :
  m ≠ "All" → f ≠ "All" →
  filtered_data (select_month_fleet m f) data
  = filter (λ r, Month r = Some m ∧ Fleet r = Some f) data.
Proof.
  intros Hm Hf. rewrite filtered_data_filter. apply list_filter_iff.
  intros r. unfold admits, field_admits. cbn. split.
  - intros (_ & _ & HF & HM). split; [apply HM|apply HF]; congruence.
  - intros [HM HF]. split_and!; try (by intros []); by intros _.
Qed.

Lemma group_keys_single (rows : table) (m f : string) :
  rows ≠ [] → (∀ r, r ∈ rows → Month r = Some m ∧ Fleet r = Some f) →
  group_keys (assign_TOTAL_COST rows) = [(m, f)].
Proof.
  intros Hne Hall. apply NoDup_all_equal; [apply group_keys_NoDup|].
  intros [m' f']. rewrite group_keys_assign. cbn. split.
  - intros (r & Hr & Hm & Hf). destruct (Hall r Hr) as [Hm' Hf']. congruence.
  - intros [= -> ->]. destruct rows as [|r rows]; [done|].
    exists r. split; [left|]. apply Hall. left.
Qed.

Lemma filter_eq_NoDup `{EqDecision K} (k0 : K) (ks : list K) :
  NoDup ks →
  filter (λ k, k = k0) ks = if decide (k0 ∈ ks) then [k0] else [].
Proof.
  intros Hks. destruct (decide (k0 ∈ ks)) as [Hin|Hin].
  - apply NoDup_all_equal.
    + eapply sublist_NoDup; [exact Hks|apply sublist_filter].
    + intros k. rewrite list_elem_of_filter. naive_solver.
  - apply filter_none. intros k Hk ->. done.
Qed.

Lemma group_row_filtered (data : table) (m f : string) :
  group_row (filter (λ r, Month r = Some m ∧ Fleet r = Some f) data) (m, f)
  = group_row data (m, f).
Proof.
  unfold group_row, rows_of_key. cbn [fst snd]. rewrite list_filter_filter.
  by rewrite (list_filter_iff _ (λ r, Month r = Some m ∧ Fleet r = Some f) data)
    by tauto.
Qed.

(** X11. Filtering then aggregating agrees with aggregating then picking:
    the aggregate of the rows selected by one month and one fleet is the row
    of that month and fleet in the aggregate of the whole table (none when
    the pair is absent). *)
Theorem aggregate_of_month_fleet_selection (data : table) (m f : string) :
  m ≠ "All" → f ≠ "All" →
  grouped_summary
    (assign_TOTAL_COST (filtered_data (select_month_fleet m f) data))
  = filter (λ g, Grouped.Month g = m ∧ Grouped.Fleet g = f)
      (grouped_summary (assign_TOTAL_COST data)).
Proof.
  intros Hm Hf. rewrite filtered_month_fleet by done.
  rewrite !grouped_summary_group_row.
  rewrite (filter_fmap (group_row data) _ (λ k, k = (m, f))).
  2:{ intros [m' f']. cbn. split; [intros [-> ->]; done|intros [= -> ->]; done]. }
  rewrite filter_eq_NoDup by apply group_keys_NoDup.
  set (fd := filter (λ r, Month r = Some m ∧ Fleet r = Some f) data).
  assert (∀ r, r ∈ fd → Month r = Some m ∧ Fleet r = Some f) as Hfd.
  { intros r Hr. by apply list_elem_of_filter in Hr as [? _]. }
  destruct (decide ((m, f) ∈ group_keys (assign_TOTAL_COST data))) as [Hin|Hin].
  - rewrite decide_True by done.
    apply group_keys_assign in Hin as (r & Hr & HM & HF).
    rewrite (group_keys_single fd m f); [|intros Hnil|done].
    + cbn. f_equal. apply group_row_filtered.
    + by eapply (filter_nil_not_elem_of _ _ r); [exact Hnil| |exact Hr].
  - rewrite decide_False by done. assert (fd = []) as ->; [|done].
    apply filter_none. intros r Hr [HM HF]. apply Hin.
    apply group_keys_assign. by exists r.
Qed.

(** X12. When the filtered rows share one month and one fleet, the aggregate
    table is a single row of that month and fleet; its number of trips is
    the Total Trips of the sidebar, and its three figures are the group
    reductions of the same whole columns that the sidebar reduces. *)
Theorem single_group_matches_sidebar (rows : table) (m f : string) :
  rows ≠ [] → (∀ r, r ∈ rows → Month r = Some m ∧ Fleet r = Some f) →
  ∃ sm g, sidebar_summary rows = Some sm
    ∧ summary_by_month_and_fleet rows = [g]
    ∧ Grouped.Month g = Categorical month_order m
    ∧ Grouped.Fleet g = f
    ∧ Grouped.number_of_trips g = Sidebar.total_trips sm
    ∧ Grouped.total_revenue g = group_sum (column TRIP_RATE rows)
    ∧ Grouped.average_profit g = group_mean (column PROFIT rows)
    ∧ Grouped.average_cost g = group_mean (column total_cost rows).
Proof.
  intros Hne Hall. do 2 eexists.
  split; [by apply sidebar_summary_nonempty|].
  unfold summary_by_month_and_fleet, sort_values.
  rewrite grouped_summary_group_row, (group_keys_single rows m f) by done.
  cbn. unfold to_categorical, group_row, rows_of_key. cbn.
  rewrite (filter_all _ rows) by (intros r Hr'; by apply Hall).
  by split_and!.
Qed.

End SingleGroup.

Lemma aggregate_of_month_fleet_selection_witness :
  length (grouped_summary
            (assign_TOTAL_COST
               (filtered_data (select_month_fleet "JULY" "OWNED") sample_mixed)))
  = 1.
Proof.
  rewrite (aggregate_of_month_fleet_selection sample_mixed "JULY" "OWNED");
    [reflexivity|done|done].
Defined.

Lemma single_group_matches_sidebar_witness :
  ∃ sm, sidebar_summary (filtered_data (select_month_fleet "JULY" "OWNED") sample_mixed)
        = Some sm
    ∧ Grouped.number_of_trips
        <$> summary_by_month_and_fleet
              (filtered_data (select_month_fleet "JULY" "OWNED") sample_mixed)
      = [Sidebar.total_trips sm].
Proof.
  destruct (single_group_matches_sidebar
              (filtered_data (select_month_fleet "JULY" "OWNED") sample_mixed)
              "JULY" "OWNED") as (sm & g & Hsm & Htable & _ & _ & Htrips & _).
  - done.
  - intros r Hr. rewrite filtered_month_fleet in Hr by done.
    by apply list_elem_of_filter in Hr as [? _].
  - exists sm. split; [exact Hsm|]. rewrite Htable. cbn. by rewrite Htrips.
Defined.

Section PageCases.
Context {arith : Arith}.
Variable read_excel : list Byte.byte → string → string + list raw_record.

Lemma main_no_upload s :
  main read_excel None s =
    [title "VPC Route Cost Dashboard";
     write "This dashboard allows users to search routes by origin, destination, fleet, and month."].
Proof. done. Qed.

Lemma main_unreadable file s e :
  read_excel file "Sheet1" = inl e →
  main read_excel (Some file) s =
    [title "VPC Route Cost Dashboard";
     write "This dashboard allows users to search routes by origin, destination, fleet, and month.";
     error ("Error reading the file: " ++ e)].
Proof. intros Hread. unfold main. by rewrite Hread. Qed.

Lemma main_read_no_error file s raw x :
  read_excel file "Sheet1" = inr raw →
  x ∈ main read_excel (Some file) s → is_error x = false.
Proof.
  intros Hread. unfold main. rewrite Hread. cbn zeta.
  rewrite !elem_of_app, !elem_of_cons, elem_of_nil.
  destruct (sidebar_summary _), (negb _);
    rewrite ?elem_of_cons, ?elem_of_nil; naive_solver.
Qed.

(** X13. What a run of [main] shows: without an upload, the heading alone;
    an error message exactly when there is an upload that cannot be read,
    and then never alongside any data of the upload; and the summary panel,
    the aggregate table or a chart only when the upload was read and rows
    remain after filtering. *)
Theorem page_sections
    (uploaded_file : option (list Byte.byte)) (s : selection) :
  (uploaded_file = None →
   main read_excel uploaded_file s =
     [title "VPC Route Cost Dashboard";
      write "This dashboard allows users to search routes by origin, destination, fleet, and month."])
  ∧ ((∃ x, x ∈ main read_excel uploaded_file s ∧ is_error x = true)
     ↔ ∃ file e, uploaded_file = Some file ∧ read_excel file "Sheet1" = inl e)
  ∧ ((∃ x, x ∈ main read_excel uploaded_file s ∧ is_error x = true) →
     ∀ x, x ∈ main read_excel uploaded_file s → shows_data x = false)
  ∧ ((∃ x, x ∈ main read_excel uploaded_file s ∧ is_dependent x = true) →
     ∃ file raw, uploaded_file = Some file
                 ∧ read_excel file "Sheet1" = inr raw
                 ∧ filtered_data s (drop_columns <$> raw) ≠ []).
Proof.
  split; [by intros ->|].
  destruct uploaded_file as [file|].
  2:{ rewrite main_no_upload. split_and!.
      - split; [|by intros (? & ? & ? & _)].
        intros (x & Hx & Herr). rewrite !elem_of_cons, elem_of_nil in Hx.
        by destruct Hx as [->|[->|[]]].
      - intros _ x Hx. rewrite !elem_of_cons, elem_of_nil in Hx.
        by destruct Hx as [->|[->|[]]].
      - intros (x & Hx & Herr). rewrite !elem_of_cons, elem_of_nil in Hx.
        by destruct Hx as [->|[->|[]]]. }
  destruct (read_excel file "Sheet1") as [e|raw] eqn:Hread.
  - rewrite (main_unreadable file s e Hread). split_and!.
    + split; [intros _; exists file, e; by rewrite Hread|].
      intros _. eexists. split; [do 2 right; left|done].
    + intros _ x Hx. rewrite !elem_of_cons, elem_of_nil in Hx.
      by destruct Hx as [->|[->|[->|[]]]].
    + intros (x & Hx & Hdep). rewrite !elem_of_cons, elem_of_nil in Hx.
      by destruct Hx as [->|[->|[->|[]]]].
  - split_and!.
    + split; [|intros (? & ? & [= <-] & ? ); congruence].
      intros (x & Hx & Herr). apply (main_read_no_error _ _ raw) in Hx; congruence.
    + intros (x & Hx & Herr). apply (main_read_no_error _ _ raw) in Hx; congruence.
    + intros (x & Hx & Hdep). exists file, raw. split_and!; [done..|].
      intros Hnil. revert Hx. unfold main. rewrite Hread. cbn zeta.
      rewrite Hnil. cbn. rewrite !elem_of_cons, elem_of_nil.
      intros [->|[->|[->|[->|[]]]]]; done.
Qed.

End PageCases.

Section RowOrder.
Context {arith : Arith}.

Lemma key_leb_spec (k1 k2 : key) :
  key_leb k1 k2 = true
  ↔ String.compare k1.1 k2.1 = Lt ∨ (k1.1 = k2.1 ∧ str_le k1.2 k2.2).
Proof.
  unfold key_leb. destruct (String.compare k1.1 k2.1) eqn:Hc.
  - apply String.compare_eq_iff in Hc. rewrite string_leb_str_le.
    split; [by right|]. intros [?|[_ ?]]; done.
  - split; [by left|done].
  - split; [done|]. intros [?|[Heq _]]; [done|].
    rewrite Heq, string_compare_refl in Hc. done.
Qed.

Lemma string_compare_Lt_Gt a b : String.compare a b = Lt → String.compare b a = Gt.
Proof. intros H. by rewrite String.compare_antisym, H. Qed.

Lemma key_leb_total k1 k2 : key_leb k1 k2 = true ∨ key_leb k2 k1 = true.
Proof.
  rewrite !key_leb_spec.
  destruct (String.compare k1.1 k2.1) eqn:Hc.
  - apply String.compare_eq_iff in Hc.
    destruct (str_le_total k1.2 k2.2); [left|right]; right; by split.
  - by left; left.
  - right; left. rewrite String.compare_antisym, Hc. done.
Qed.

Lemma key_leb_trans k1 k2 k3 :
  key_leb k1 k2 = true → key_leb k2 k3 = true → key_leb k1 k3 = true.
Proof.
  rewrite !key_leb_spec. intros [H12|[E12 L12]] [H23|[E23 L23]].
  - left. by eapply string_compare_lt_trans.
  - left. by rewrite <- E23.
  - left. by rewrite E12.
  - right. split; [congruence|]. by eapply str_le_trans.
Qed.

Lemma str_le_antisym a b : str_le a b → str_le b a → a = b.
Proof.
  rewrite !str_le_cases. intros [Hab|?] [Hba|?]; try done.
  apply string_compare_Lt_Gt in Hab. congruence.
Qed.

Lemma key_leb_antisym (k1 k2 : key) :
  key_leb k1 k2 = true → key_leb k2 k1 = true → k1 = k2.
Proof.
  rewrite !key_leb_spec. destruct k1 as [m1 f1], k2 as [m2 f2]. cbn.
  intros [H12|[-> L12]] [H21|[E21 L21]].
  - apply string_compare_Lt_Gt in H12. congruence.
  - subst. by rewrite string_compare_refl in H12.
  - by rewrite string_compare_refl in H21.
  - f_equal. by apply str_le_antisym.
Qed.

Lemma stable_sort_antisym_Permutation {B} (leb : B → B → bool) (l l' : list B) :
  (∀ x y, leb x y = true ∨ leb y x = true) →
  (∀ x y z, leb x y = true → leb y z = true → leb x z = true) →
  (∀ x y, leb x y = true → leb y x = true → x = y) →
  l ≡ₚ l' → stable_sort leb l = stable_sort leb l'.
Proof.
  intros Htotal Htrans Hanti Hperm.
  apply (StronglySorted_unique_strong (λ a b, leb a b = true)).
  - intros x y _ _. apply Hanti.
  - by apply stable_sort_StronglySorted.
  - by apply stable_sort_StronglySorted.
  - by rewrite !stable_sort_Permutation.
Qed.

Lemma unique_Permutation {B} `{EqDecision B} (l l' : list B) :
  l ≡ₚ l' → unique l ≡ₚ unique l'.
Proof.
  intros Hperm. apply NoDup_Permutation; [apply unique_from_NoDup..|].
  intros x. unfold unique. rewrite !unique_from_elem_of. by rewrite Hperm.
Qed.

Lemma group_keys_Permutation (rows rows' : table) :
  rows ≡ₚ rows' →
  group_keys (assign_TOTAL_COST rows) = group_keys (assign_TOTAL_COST rows').
Proof.
  intros Hperm. unfold group_keys.
  apply stable_sort_antisym_Permutation;
    [apply key_leb_total|apply key_leb_trans|apply key_leb_antisym|].
  apply unique_Permutation. unfold populated, assign_TOTAL_COST.
  by rewrite Hperm.
Qed.

Lemma insert_sorted_Forall2 {B} (R : relation B) (leb : B → B → bool) x y l l' :
  (∀ a b c d, R a b → R c d → leb a c = leb b d) →
  R x y → Forall2 R l l' →
  Forall2 R (insert_sorted leb x l) (insert_sorted leb y l').
Proof.
  intros Hleb Hxy. induction 1 as [|a b l l' Hab Hl IH]; cbn.
  - by repeat constructor.
  - rewrite (Hleb x y a b Hxy Hab). destruct (leb y b); by repeat constructor.
Qed.

Lemma stable_sort_Forall2 {B} (R : relation B) (leb : B → B → bool) l l' :
  (∀ a b c d, R a b → R c d → leb a c = leb b d) →
  Forall2 R l l' → Forall2 R (stable_sort leb l) (stable_sort leb l').
Proof.
  intros Hleb. induction 1 as [|a b l l' Hab Hl IH]; cbn; [constructor|].
  by apply insert_sorted_Forall2.
Qed.

Lemma Forall2_fmap_eq {B C} (h : B → C) (l l' : list B) :
  Forall2 (λ a b, h a = h b) l l' → h <$> l = h <$> l'.
Proof. induction 1 as [|a b l l' Hab Hl IH]; [done|]. cbn. by rewrite Hab, IH. Qed.

Lemma trips_of_row_leb (a b c d : Grouped.row (option string)) :
  trips_of a = trips_of b → trips_of c = trips_of d →
  row_leb a c = row_leb b d.
Proof.
  unfold trips_of, row_leb. intros [= -> -> _] [= -> -> _]. done.
Qed.

Lemma trips_of_group_row (rows rows' : table) (k : key) :
  rows ≡ₚ rows' →
  trips_of (to_categorical (group_row rows k))
  = trips_of (to_categorical (group_row rows' k)).
Proof.
  intros Hperm. unfold trips_of, to_categorical, group_row. cbn.
  f_equal. rewrite !count_filter. apply Permutation_length.
  unfold rows_of_key. by rewrite Hperm.
Qed.

Lemma summary_trips_Permutation (rows rows' : table) :
  rows ≡ₚ rows' →
  trips_of <$> summary_by_month_and_fleet rows
  = trips_of <$> summary_by_month_and_fleet rows'.
Proof.
  intros Hperm. unfold summary_by_month_and_fleet, sort_values.
  rewrite !grouped_summary_group_row, (group_keys_Permutation _ _ Hperm).
  apply Forall2_fmap_eq.
  apply stable_sort_Forall2; [apply trips_of_row_leb|].
  rewrite <- !list_fmap_compose. apply Forall2_fmap, Forall2_same_length_lookup.
  split; [done|]. intros i k k' Hk Hk'. simplify_eq. cbn.
  by apply trips_of_group_row.
Qed.

Lemma total_trips_Permutation (rows rows' : table) :
  rows ≡ₚ rows' →
  Sidebar.total_trips <$> sidebar_summary rows
  = Sidebar.total_trips <$> sidebar_summary rows'.
Proof.
  intros Hperm. destruct (decide (rows = [])) as [->|Hne].
  { apply Permutation_nil_l in Hperm as <-. done. }
  assert (rows' ≠ []) as Hne'.
  { intros ->. by apply Permutation_nil_r in Hperm. }
  rewrite !sidebar_summary_nonempty by done. cbn. f_equal.
  unfold column. rewrite !count_filter. apply Permutation_length.
  by rewrite Hperm.
Qed.

(** X15. The order of the rows in the sheet does not matter to what is
    counted: two tables with the same rows in different orders give, under
    every selection, the same Total Trips and the same Month, Fleet and
    number_of_trips columns of the aggregate table, row order included. *)
Theorem trip_counts_independent_of_row_order (data data' : table) (s : selection) :
  data ≡ₚ data' →
  Sidebar.total_trips <$> sidebar_summary (filtered_data s data)
  = Sidebar.total_trips <$> sidebar_summary (filtered_data s data')
  ∧ trips_of <$> summary_by_month_and_fleet (filtered_data s data)
    = trips_of <$> summary_by_month_and_fleet (filtered_data s data').
Proof.
  intros Hperm.
  assert (filtered_data s data ≡ₚ filtered_data s data') as Hfd.
  { rewrite !filtered_data_filter. by rewrite Hperm. }
  split; [by apply total_trips_Permutation|by apply summary_trips_Permutation].
Qed.

End RowOrder.

Lemma trip_counts_independent_of_row_order_witness :
  trips_of <$> summary_by_month_and_fleet
                 (filtered_data (select_fleet "OWNED") sample_mixed)
  = trips_of <$> summary_by_month_and_fleet
                   (filtered_data (select_fleet "OWNED") (reverse sample_mixed)).
Proof.
  apply (trip_counts_independent_of_row_order sample_mixed (reverse sample_mixed)).
  symmetry. apply reverse_Permutation.
Defined.
